(** * Edit distances and local alignment: glu/lib/seqlib/_edits.pyx

    A shallow embedding of the Cython module [_edits.pyx] and the
    properties its documentation states.

    Conventions of the embedding.
    - A Python 2 [str] is a [list ascii]; [PyString_Size] is its length and
      the [char *] view of it is read with [char_at].
    - [Py_ssize_t] values are integers of [Z].  In the distance engines every
      such value lies between [0] and the sum of the two lengths, so no
      wrap-around is written for them; the alignment engines store costs in
      [int] cells and that narrowing is written out ([to_int]).
    - A block obtained from [malloc]/[calloc] is a [list] of its cells, read
      with [load] and updated in place with [store].
    - Cython keeps Python's meaning of [for v in range(..)] over a C integer
      target: [v] holds the last value the loop gave it, and keeps the value
      it had before the loop when the range is empty. *)

From Stdlib Require Import ZArith String Ascii List Bool Lia.
Import ListNotations.
Local Open Scope Z_scope.

(** ** Outcomes of a call *)

Inductive outcome (A : Type) : Type :=
| Ok (a : A)                  (* the call returns [a] *)
| ValueError (msg : string)   (* the call raises ValueError(msg) *)
| OutOfBounds                 (* an access outside an allocated block *)
| OutOfFuel.                  (* the loop bound of the model was reached *)
Arguments Ok {A} a.
Arguments ValueError {A} msg.
Arguments OutOfBounds {A}.
Arguments OutOfFuel {A}.

Definition bind {A B} (c : outcome A) (f : A -> outcome B) : outcome B :=
  match c with
  | Ok a => f a
  | ValueError msg => ValueError msg
  | OutOfBounds => OutOfBounds
  | OutOfFuel => OutOfFuel
  end.

Notation "x <- c ;; k" := (bind c (fun x => k))
  (at level 61, c at next level, right associativity).

(** ** Sequences, blocks and ranges *)

Definition bytes (s : string) : list ascii := list_ascii_of_string s.

Definition PyString_Size (s : list ascii) : Z := Z.of_nat (length s).

Definition load {A} (d : A) (a : list A) (i : Z) : A := nth (Z.to_nat i) a d.

Fixpoint store_nth {A} (a : list A) (i : nat) (v : A) : list A :=
  match a, i with
  | [], _ => []
  | _ :: t, O => v :: t
  | h :: t, S i' => h :: store_nth t i' v
  end.

Definition store {A} (a : list A) (i : Z) (v : A) : list A :=
  store_nth a (Z.to_nat i) v.

(* ss[i] for the char* view of a str (the byte after the last one is NUL) *)
Definition char_at (s : list ascii) (i : Z) : ascii := load zero s i.

(* range(n) *)
Definition range (n : Z) : list Z := map Z.of_nat (seq 0 (Z.to_nat n)).

(* s[lo:hi] on a Python sequence *)
Definition py_slice {A} (s : list A) (lo hi : Z) : list A :=
  let len := Z.of_nat (length s) in
  let clip x := if x <? 0 then Z.max 0 (x + len) else Z.min x len in
  firstn (Z.to_nat (clip hi - clip lo)) (skipn (Z.to_nat (clip lo)) s).

(** ** min/max helpers *)

Definition min2 (a b : Z) : Z := if a <? b then a else b.
Definition min3 (a b c : Z) : Z := min2 (min2 a b) c.
Definition min4 (a b c d : Z) : Z := min2 (min2 a b) (min2 c d).
Definition max2 (a b : Z) : Z := if a >=? b then a else b.
Definition max3 (a b c : Z) : Z := max2 (max2 a b) c.
Definition max4 (a b c d : Z) : Z := max2 (max2 a b) (max2 c d).

(** ** hamming_distance *)

Definition hamming_step (s1 s2 : list ascii) (d i : Z) : Z :=
  if negb (Ascii.eqb (char_at s1 i) (char_at s2 i)) then d + 1 else d.

Definition hamming_distance (s1 s2 : list ascii) : outcome Z :=
  let l1 := PyString_Size s1 in
  let l2 := PyString_Size s2 in
  if negb (l1 =? l2) then ValueError "Length mismatch"%string
  else Ok (fold_left (hamming_step s1 s2) (range l1) 0).

(* the number of positions below [length a] at which a and b differ *)
Definition count_diff (a b : list ascii) : Z :=
  Z.of_nat (length (filter
    (fun i => negb (Ascii.eqb (nth i a zero) (nth i b zero)))
    (seq 0 (length a)))).

(** ** reduce_match *)

(* [for v in range(..): if stop(v): break], started with [v] holding [v0];
   the result is the value of [v] after the loop *)
Fixpoint scan_range (stop : Z -> bool) (vals : list Z) (v0 : Z) : Z :=
  match vals with
  | [] => v0
  | v :: rest => if stop v then v else scan_range stop rest v
  end.

Definition reduce_match (s1 s2 : list ascii) : list ascii * list ascii * Z :=
  let l1 := PyString_Size s1 in
  let l2 := PyString_Size s2 in
  let l := min2 l1 l2 in
  let i := 0 in
  let j := l1 - 1 in
  let i := scan_range
             (fun i => negb (Ascii.eqb (char_at s1 i) (char_at s2 i)))
             (range l) i in
  let j := scan_range
             (fun j => negb (Ascii.eqb (char_at s1 (l1 - j - 1))
                                       (char_at s2 (l2 - j - 1))))
             (range (l - i)) j in
  (py_slice s1 i (l1 - j), py_slice s2 i (l2 - j), i).

(** ** levenshtein_distance *)

Definition iota_row (m : Z) : list Z := range (m + 1).

Definition lev_cell (c1 : ascii) (s2 : list ascii) (previous current : list Z)
    (j : Z) : list Z :=
  let c2 := char_at s2 j in
  let cost := if Ascii.eqb c1 c2 then 0 else 1 in
  let match_ := load 0 previous j + cost in
  let insert := load 0 current j + 1 in
  let delete := load 0 previous (j + 1) + 1 in
  store current (j + 1) (min3 match_ insert delete).

(* one turn of the loop over s1; the state is (current, previous) *)
Definition lev_row (s1 s2 : list ascii) (m : Z)
    (st : list Z * list Z) (i : Z) : list Z * list Z :=
  let '(current, previous) := st in
  let c1 := char_at s1 i in
  let '(previous, current) := (current, previous) in
  let current := store current 0 (i + 1) in
  let current := fold_left (lev_cell c1 s2 previous) (range m) current in
  (current, previous).

(* the rolling two-row computation *)
Definition lev_dp (s1 s2 : list ascii) : Z :=
  let n := PyString_Size s1 in
  let m := PyString_Size s2 in
  let current := iota_row m in
  let previous := map (fun _ => 0) (range (m + 1)) in
  let '(current, _) :=
    fold_left (lev_row s1 s2 m) (range n) (current, previous) in
  load 0 current m.

(* the body of levenshtein_distance below the call of reduce_match *)
Definition levenshtein_core (s1 s2 : list ascii) : Z :=
  let '(s1, s2) :=
    if PyString_Size s1 <? PyString_Size s2 then (s2, s1) else (s1, s2) in
  match s2 with
  | [] => PyString_Size s1
  | _ => lev_dp s1 s2
  end.

Definition levenshtein_distance (s1 s2 : list ascii) : Z :=
  let '(s1, s2, _) := reduce_match s1 s2 in
  levenshtein_core s1 s2.

(** ** damerau_levenshtein_distance *)

Definition dl_cell (s1 s2 : list ascii) (i : Z) (c1 : ascii)
    (previous2 previous1 current : list Z) (j : Z) : list Z :=
  let c2 := char_at s2 j in
  let cost := if Ascii.eqb c1 c2 then 0 else 1 in
  let match_ := load 0 previous1 j + cost in
  let insert := load 0 current j + 1 in
  let delete := load 0 previous1 (j + 1) + 1 in
  let trans := match_ in
  let trans :=
    if negb (i =? 0) && negb (j =? 0)
       && Ascii.eqb c1 (char_at s2 (j - 1))
       && Ascii.eqb (char_at s1 (i - 1)) c2
    then load 0 previous2 (j - 1) + 1 else trans in
  store current (j + 1) (min4 match_ insert delete trans).

(* one turn of the loop over s1; the state is (current, previous1, previous2) *)
Definition dl_row (s1 s2 : list ascii) (m : Z)
    (st : list Z * list Z * list Z) (i : Z) : list Z * list Z * list Z :=
  let '(current, previous1, previous2) := st in
  let c1 := char_at s1 i in
  let '(previous2, previous1, current) := (previous1, current, previous2) in
  let current := store current 0 (i + 1) in
  let current :=
    fold_left (dl_cell s1 s2 i c1 previous2 previous1) (range m) current in
  (current, previous1, previous2).

(* the rolling three-row computation *)
Definition dl_dp (s1 s2 : list ascii) : Z :=
  let n := PyString_Size s1 in
  let m := PyString_Size s2 in
  let zeros := map (fun _ => 0) (range (m + 1)) in
  let '(current, _, _) :=
    fold_left (dl_row s1 s2 m) (range n) (iota_row m, zeros, zeros) in
  load 0 current m.

(* the body of damerau_levenshtein_distance below the call of reduce_match *)
Definition damerau_levenshtein_core (s1 s2 : list ascii) : Z :=
  let '(s1, s2) :=
    if PyString_Size s1 <? PyString_Size s2 then (s2, s1) else (s1, s2) in
  match s1 with
  | [] => PyString_Size s2
  | _ => dl_dp s1 s2
  end.

Definition damerau_levenshtein_distance (s1 s2 : list ascii) : Z :=
  let '(s1, s2, _) := reduce_match s1 s2 in
  damerau_levenshtein_core s1 s2.

(** ** Checked accesses and loops of the alignment engines *)

(* a read that can leave its block *)
Definition load_chk {A} (a : list A) (i : Z) : outcome A :=
  if (0 <=? i) && (i <? Z.of_nat (length a))
  then match nth_error a (Z.to_nat i) with
       | Some v => Ok v
       | None => OutOfBounds
       end
  else OutOfBounds.

(* a write that can leave its block *)
Definition store_chk {A} (a : list A) (i : Z) (v : A) : outcome (list A) :=
  if (0 <=? i) && (i <? Z.of_nat (length a)) then Ok (store a i v)
  else OutOfBounds.

(* [while cond: body], run for at most [fuel] turns *)
Fixpoint while_ {S} (fuel : nat) (cond : S -> bool) (body : S -> outcome S)
    (s : S) : outcome S :=
  if cond s then
    match fuel with
    | O => OutOfFuel
    | Datatypes.S fuel' => s' <- body s ;; while_ fuel' cond body s'
    end
  else Ok s.

(* a while loop with the bound on its turns taken from the entry state *)
Definition loop {S} (measure : S -> Z) (cond : S -> bool)
    (body : S -> outcome S) (s : S) : outcome S :=
  while_ (Z.to_nat (measure s)) cond body s.

Fixpoint foldM {S X} (f : S -> X -> outcome S) (l : list X) (s : S)
    : outcome S :=
  match l with
  | [] => Ok s
  | x :: rest => s' <- f s x ;; foldM f rest s'
  end.

(* the value an [int] cell holds after a Py_ssize_t is stored in it *)
Definition to_int (z : Z) : Z := (z + 2147483648) mod 4294967296 - 2147483648.

(** ** CigarOp, _op_str and _roll_cigar *)

Record CigarOp : Type := mkCigarOp { op : string; count : Z }.

Definition known_op (c : ascii) : bool :=
  existsb (Ascii.eqb c)
    ["S"; "N"; "M"; "="; "X"; "I"; "D"; "T"]%char.

Definition _op_str (c : ascii) : outcome string :=
  if known_op c then Ok (String c EmptyString)
  else ValueError "Unknown op"%string.

(* the encoder's loop body; the state is (op, count, cigar) *)
Definition rle_step (st : ascii * Z * list CigarOp) (c : ascii)
    : outcome (ascii * Z * list CigarOp) :=
  let '(op, count, cigar) := st in
  if Ascii.eqb c op then Ok (op, count + 1, cigar)
  else
    cigar <- (if negb (count =? 0)
              then opstr <- _op_str op ;; Ok (cigar ++ [mkCigarOp opstr count])
              else Ok cigar) ;;
    Ok (c, 1, cigar).

Definition rle_flush (st : ascii * Z * list CigarOp) : outcome (list CigarOp) :=
  let '(op, count, cigar) := st in
  if negb (count =? 0)
  then opstr <- _op_str op ;; Ok (cigar ++ [mkCigarOp opstr count])
  else Ok cigar.

(* the run-length encoder at the end of _roll_cigar, on the symbols in the
   order the loop [for k in range(k-1,-1,-1)] reads them *)
Definition encode_runs (syms : list ascii) : outcome (list CigarOp) :=
  st <- foldM rle_step syms (zero, 0, []) ;;
  rle_flush st.

Record roll : Type := mkRoll {
  r_n : Z; r_m : Z; r_i : Z; r_j : Z; r_k : Z; r_igar : list ascii }.

(* igar[k] = c; k += 1 *)
Definition emit (c : ascii) (s : roll) : outcome roll :=
  igar <- store_chk (r_igar s) (r_k s) c ;;
  Ok (mkRoll (r_n s) (r_m s) (r_i s) (r_j s) (r_k s + 1) igar).

Definition walk_step (edits : list ascii) (s : roll) : outcome roll :=
  op <- load_chk edits (r_m s * r_i s + r_j s) ;;
  s <- emit op s ;;
  let '(mkRoll n m i j k igar) := s in
  if Ascii.eqb op "M" || Ascii.eqb op "=" || Ascii.eqb op "X"
  then Ok (mkRoll n m (i - 1) (j - 1) k igar)
  else if Ascii.eqb op "D" then Ok (mkRoll n m (i - 1) j k igar)
  else if Ascii.eqb op "I" then Ok (mkRoll n m i (j - 1) k igar)
  else if Ascii.eqb op "T" then Ok (mkRoll n m (i - 2) (j - 2) k igar)
  else ValueError "Invalid edit operation"%string.

(* the five while loops of _roll_cigar, on the block [igar]; the result is
   the state after them *)
Definition roll_loops (igar : list ascii) (n m i j : Z) (edits : list ascii)
    : outcome roll :=
  s <- loop (fun s => r_n s - 1 - r_i s)
         (fun s => r_n s - 1 >? r_i s)
         (fun s => s <- emit "S" s ;;
            Ok (mkRoll (r_n s - 1) (r_m s) (r_i s) (r_j s) (r_k s) (r_igar s)))
         (mkRoll n m i j 0 igar) ;;
  s <- loop (fun s => r_m s - 1 - r_j s)
         (fun s => r_m s - 1 >? r_j s)
         (fun s => s <- emit "N" s ;;
            Ok (mkRoll (r_n s) (r_m s - 1) (r_i s) (r_j s) (r_k s) (r_igar s)))
         s ;;
  s <- loop (fun s => r_i s + r_j s + 1)
         (fun s => (r_i s >=? 0) && (r_j s >=? 0))
         (walk_step edits) s ;;
  s <- loop (fun s => r_j s + 1)
         (fun s => r_j s >=? 0)
         (fun s => s <- emit "N" s ;;
            Ok (mkRoll (r_n s) (r_m s) (r_i s) (r_j s - 1) (r_k s) (r_igar s)))
         s ;;
  loop (fun s => r_i s + 1)
       (fun s => r_i s >=? 0)
       (fun s => s <- emit "S" s ;;
          Ok (mkRoll (r_n s) (r_m s) (r_i s - 1) (r_j s) (r_k s) (r_igar s)))
       s.

(* the loops on the block that _roll_cigar allocates *)
Definition roll_trace (n m i j : Z) (edits : list ascii) : outcome roll :=
  roll_loops (repeat zero (Z.to_nat (max2 n m))) n m i j edits.

(* igar[k-1], ..., igar[0] *)
Definition emitted (s : roll) : list ascii :=
  map (load zero (r_igar s)) (rev (range (r_k s))).

Definition _roll_cigar (n m i j : Z) (edits : list ascii)
    : outcome (list CigarOp) :=
  s <- roll_trace n m i j edits ;;
  encode_runs (emitted s).

(** ** smith_waterman *)

Record dp : Type := mkDp {
  d_cost : list Z; d_gap1 : list Z; d_gap2 : list Z; d_edits : list ascii;
  d_max_i : Z; d_max_j : Z; d_max_cost : Z }.

Definition pick_op (c1 c2 : ascii) (mcost match_ insert : Z) : ascii :=
  if (mcost =? match_) && Ascii.eqb c1 c2 then "="%char
  else if mcost =? match_ then "X"%char
  else if mcost =? insert then "I"%char
  else "D"%char.

Definition sw_cell (s2 : list ascii) (match_score mismatch_score gap_score : Z)
    (m i : Z) (c1 : ascii) (d : dp) (j : Z) : dp :=
  let '(mkDp cost gap1 gap2 edits max_i max_j max_cost) := d in
  let c2 := char_at s2 j in
  let match_ := load 0 cost ((m + 1) * i + j) in
  let match_ :=
    if Ascii.eqb c1 c2 then match_ + match_score
    else match_ + mismatch_score in
  let insert := load 0 cost ((m + 1) * (i + 1) + j) + gap_score in
  let delete := load 0 cost ((m + 1) * i + j + 1) + gap_score in
  let mcost := max4 0 match_ insert delete in
  let cost := store cost ((m + 1) * (i + 1) + j + 1) (to_int mcost) in
  let '(max_cost, max_i, max_j) :=
    if mcost >? max_cost then (mcost, i, j) else (max_cost, max_i, max_j) in
  let op := pick_op c1 c2 mcost match_ insert in
  mkDp cost gap1 gap2 (store edits (m * i + j) op) max_i max_j max_cost.

Definition dp_row (cell : Z -> ascii -> dp -> Z -> dp) (clear_gaps : bool)
    (s1 : list ascii) (m : Z) (d : dp) (i : Z) : dp :=
  let c1 := char_at s1 i in
  let '(mkDp cost gap1 gap2 edits max_i max_j max_cost) := d in
  let cost := store cost ((m + 1) * (i + 1)) 0 in
  let gap1 := if clear_gaps then store gap1 ((m + 1) * (i + 1)) 0 else gap1 in
  let gap2 := if clear_gaps then store gap2 ((m + 1) * (i + 1)) 0 else gap2 in
  fold_left (cell i c1) (range m)
    (mkDp cost gap1 gap2 edits max_i max_j max_cost).

(* the end of both engines: read the score, roll the trace *)
Definition finish (n m : Z) (d : dp) : outcome (Z * list CigarOp) :=
  score <- load_chk (d_cost d) ((m + 1) * (d_max_i d + 1) + d_max_j d + 1) ;;
  cigar <- _roll_cigar n m (d_max_i d) (d_max_j d) (d_edits d) ;;
  Ok (score, cigar).

(* the cost and operation tables and the best cell *)
Definition sw_table (s1 s2 : list ascii)
    (match_score mismatch_score gap_score : Z) : dp :=
  let n := PyString_Size s1 in
  let m := PyString_Size s2 in
  let edits := repeat zero (Z.to_nat (n * m)) in
  let cost := repeat 0 (Z.to_nat ((n + 1) * (m + 1))) in
  let cost := fold_left (fun cost j => store cost j 0) (range (m + 1)) cost in
  fold_left
    (dp_row (sw_cell s2 match_score mismatch_score gap_score m) false s1 m)
    (range n) (mkDp cost [] [] edits 0 0 0).

Definition smith_waterman (s1 s2 : list ascii)
    (match_score mismatch_score gap_score : Z) : outcome (Z * list CigarOp) :=
  finish (PyString_Size s1) (PyString_Size s2)
    (sw_table s1 s2 match_score mismatch_score gap_score).

(** ** smith_waterman_gotoh *)

Definition gotoh_cell (s2 : list ascii)
    (match_score mismatch_score gap_open_score gap_extend_score : Z)
    (m i : Z) (c1 : ascii) (d : dp) (j : Z) : dp :=
  let '(mkDp cost gap1 gap2 edits max_i max_j max_cost) := d in
  let c2 := char_at s2 j in
  let match_ := load 0 cost ((m + 1) * i + j) in
  let match_ :=
    if Ascii.eqb c1 c2 then match_ + match_score
    else match_ + mismatch_score in
  let insert :=
    max2 (load 0 gap1 ((m + 1) * (i + 1) + j) + gap_extend_score)
         (load 0 cost ((m + 1) * (i + 1) + j) + gap_open_score) in
  let gap1 := store gap1 ((m + 1) * (i + 1) + j + 1) (to_int insert) in
  let delete :=
    max2 (load 0 gap2 ((m + 1) * i + j + 1) + gap_extend_score)
         (load 0 cost ((m + 1) * i + j + 1) + gap_open_score) in
  let gap2 := store gap2 ((m + 1) * (i + 1) + j + 1) (to_int delete) in
  let mcost := max4 0 match_ insert delete in
  let cost := store cost ((m + 1) * (i + 1) + j + 1) (to_int mcost) in
  let '(max_cost, max_i, max_j) :=
    if mcost >? max_cost then (mcost, i, j) else (max_cost, max_i, max_j) in
  let op := pick_op c1 c2 mcost match_ insert in
  mkDp cost gap1 gap2 (store edits (m * i + j) op) max_i max_j max_cost.

Definition gotoh_table (s1 s2 : list ascii)
    (match_score mismatch_score gap_open_score gap_extend_score : Z) : dp :=
  let n := PyString_Size s1 in
  let m := PyString_Size s2 in
  let edits := repeat zero (Z.to_nat (n * m)) in
  let zeros := repeat 0 (Z.to_nat ((n + 1) * (m + 1))) in
  let clear a := fold_left (fun a j => store a j 0) (range (m + 1)) a in
  fold_left
    (dp_row (gotoh_cell s2 match_score mismatch_score
               gap_open_score gap_extend_score m) true s1 m)
    (range n)
    (mkDp (clear zeros) (clear zeros) (clear zeros) edits 0 0 0).

(* the affine-gap computation below the fall-back test *)
Definition gotoh_affine (s1 s2 : list ascii)
    (match_score mismatch_score gap_open_score gap_extend_score : Z)
    : outcome (Z * list CigarOp) :=
  finish (PyString_Size s1) (PyString_Size s2)
    (gotoh_table s1 s2 match_score mismatch_score
       gap_open_score gap_extend_score).

Definition smith_waterman_gotoh (s1 s2 : list ascii)
    (match_score mismatch_score gap_open_score gap_extend_score : Z)
    : outcome (Z * list CigarOp) :=
  if gap_open_score =? gap_extend_score
  then smith_waterman s1 s2 match_score mismatch_score gap_open_score
  else gotoh_affine s1 s2 match_score mismatch_score
         gap_open_score gap_extend_score.

(** ** cigar_to_string *)

(** Modelled from the spec: [cigar_to_string] lives in glu.lib.seqlib.edits,
    which is not part of this module; the worked examples give its output as
    the counts, in decimal, each followed by its operation symbol. *)
Fixpoint decimal_digits (fuel : nat) (z : Z) (acc : string) : string :=
  match fuel with
  | O => acc
  | Datatypes.S fuel' =>
    let acc := String (ascii_of_nat (48 + Z.to_nat (z mod 10))) acc in
    if z / 10 =? 0 then acc else decimal_digits fuel' (z / 10) acc
  end.

Definition decimal (z : Z) : string :=
  decimal_digits (Datatypes.S (Z.to_nat (Z.log2 z))) z EmptyString.

Definition cigar_to_string (cigar : list CigarOp) : string :=
  String.concat EmptyString
    (map (fun c => String.append (decimal (count c)) (op c)) cigar).

(** ** Reading a script *)

Definition op_char (c : CigarOp) : ascii :=
  match op c with
  | String a _ => a
  | EmptyString => zero
  end.

(* the flat, one symbol per position, form of a script *)
Definition expand (script : list CigarOp) : list ascii :=
  flat_map (fun c => repeat (op_char c) (Z.to_nat (count c))) script.

Fixpoint no_repeat (ops : list string) : Prop :=
  match ops with
  | a :: (b :: _) as rest => a <> b /\ no_repeat rest
  | _ => True
  end.

(* no two neighbours share their operation and every count is positive *)
Definition maximal_run (script : list CigarOp) : Prop :=
  Forall (fun c => 0 < count c) script /\ no_repeat (map op script).

(* what one entry of a script adds to the score, for a flat gap cost *)
Definition op_score (match_score mismatch_score gap_score : Z) (c : CigarOp)
    : Z :=
  let a := op_char c in
  if Ascii.eqb a "=" then match_score * count c
  else if Ascii.eqb a "X" then mismatch_score * count c
  else if Ascii.eqb a "I" || Ascii.eqb a "D" then gap_score * count c
  else 0.

Definition script_score (match_score mismatch_score gap_score : Z)
    (script : list CigarOp) : Z :=
  fold_right (fun c acc => op_score match_score mismatch_score gap_score c + acc)
    0 script.

(** ** Invariants of the loops *)

(* the rows of the two distance engines after the same number of turns:
   all of one width, the Damerau-Levenshtein row nowhere above the
   Levenshtein row *)
Definition rows_below (width : nat) (dl : list Z * list Z * list Z)
    (lev : list Z * list Z) : Prop :=
  let '(cur_d, prev1_d, prev2_d) := dl in
  let '(cur_l, prev_l) := lev in
  length cur_d = width /\ length prev1_d = width /\ length prev2_d = width /\
  length cur_l = width /\ length prev_l = width /\
  forall k, nth k cur_d 0 <= nth k cur_l 0.

(* the run the encoder is counting, as the entry it will become *)
Definition pending (st : ascii * Z * list CigarOp) : list CigarOp :=
  let '(op, count, _) := st in
  if count =? 0 then [] else [mkCigarOp (String op EmptyString) count].

(* the script the encoder has read so far *)
Definition so_far (st : ascii * Z * list CigarOp) : list CigarOp :=
  let '(_, _, cigar) := st in cigar ++ pending st.

Definition rle_inv (st : ascii * Z * list CigarOp) : Prop :=
  let '(_, count, cigar) := st in
  0 <= count /\ (count = 0 -> cigar = []) /\ maximal_run (so_far st).

(** ** The recurrences of the docstrings *)

(* 0 when s1[r] and s2[c] are the same symbol, 1 otherwise *)
Definition sub_cost (s1 s2 : list ascii) (r c : nat) : Z :=
  if Ascii.eqb (nth r s1 zero) (nth c s2 zero) then 0 else 1.

(* cost[r,c] of the docstring of levenshtein_distance: the cost of turning
   the first r symbols of s1 into the first c symbols of s2 *)
Fixpoint lev_table (s1 s2 : list ascii) (r : nat) : nat -> Z :=
  match r with
  | O => fun c => Z.of_nat c
  | S r' =>
    fix row (c : nat) : Z :=
      match c with
      | O => Z.of_nat (S r')
      | S c' =>
        min3 (lev_table s1 s2 r' c' + sub_cost s1 s2 r' c')
             (row c' + 1)
             (lev_table s1 s2 r' (S c') + 1)
      end
  end.

(* the rows of levenshtein_distance after r turns of its outer loop: both
   of one width, the current one holding row r of the table *)
Definition lev_rows_at (s1 s2 : list ascii) (width r : nat)
    (st : list Z * list Z) : Prop :=
  let '(current, previous) := st in
  length current = width /\ length previous = width /\
  forall c, (c < width)%nat -> nth c current 0 = lev_table s1 s2 r c.

(** ** Symbols of a script and what they cover *)

(* the operations smith_waterman and smith_waterman_gotoh record in [edits] *)
Definition table_op (c : ascii) : bool :=
  existsb (Ascii.eqb c) ["="; "X"; "I"; "D"]%char.

(* the symbols _roll_cigar writes for those tables: the recorded operations
   and the two skips *)
Definition align_sym (c : ascii) : bool :=
  existsb (Ascii.eqb c) ["S"; "N"; "="; "X"; "I"; "D"]%char.

(* how far one symbol moves the walk of _roll_cigar along s1 ... *)
Definition covers1 (c : ascii) : Z :=
  if existsb (Ascii.eqb c) ["S"; "M"; "="; "X"; "D"]%char then 1
  else if Ascii.eqb c "T" then 2 else 0.

(* ... and along s2 *)
Definition covers2 (c : ascii) : Z :=
  if existsb (Ascii.eqb c) ["N"; "M"; "="; "X"; "I"]%char then 1
  else if Ascii.eqb c "T" then 2 else 0.

Definition total (w : ascii -> Z) (syms : list ascii) : Z :=
  fold_right (fun c acc => w c + acc) 0 syms.

(* the number of symbols of the first and of the second sequence that a
   script accounts for *)
Definition span1 (script : list CigarOp) : Z := total covers1 (expand script).
Definition span2 (script : list CigarOp) : Z := total covers2 (expand script).

(* an entry as the encoder builds it: a known one-symbol operation *)
Definition entry_ok (c : CigarOp) : Prop :=
  exists a, op c = String a EmptyString /\ known_op a = true.

(* the state of the encoder can be flushed without raising *)
Definition pending_ok (st : ascii * Z * list CigarOp) : Prop :=
  let '(o, n, _) := st in n = 0 \/ (0 < n /\ known_op o = true).

(* what the loops of _roll_cigar keep true of their state, for a call with
   the arguments n0 m0 i0 j0 on a block of [cap] cells, [P] holding of 'S',
   of 'N' and of every cell of [edits]: k stays within the block, and the
   symbols written so far cover as much of each sequence as n, m, i and j
   have moved *)
Definition roll_inv (cap : nat) (P : ascii -> Prop) (n0 m0 i0 j0 : Z)
    (s : roll) : Prop :=
  length (r_igar s) = cap /\
  0 <= r_k s <= Z.of_nat cap /\
  total covers1 (emitted s) = (n0 - r_n s) + (i0 - r_i s) /\
  total covers2 (emitted s) = (m0 - r_m s) + (j0 - r_j s) /\
  Z.of_nat (length (emitted s)) = r_k s /\
  Forall P (emitted s).

(* the tables after the cells before position [filled] (in row-major order)
   have been computed *)
Definition table_inv (n m : Z) (filled : Z) (d : dp) : Prop :=
  Z.of_nat (length (d_cost d)) = (n + 1) * (m + 1) /\
  Z.of_nat (length (d_edits d)) = n * m /\
  (forall x, 0 <= x < filled ->
     table_op (load zero (d_edits d) x) = true) /\
  ((d_max_i d = 0 /\ d_max_j d = 0) \/
   (0 <= d_max_i d < n /\ 0 <= d_max_j d < m)).

(* a cell function keeps the invariant, one cell further *)
Definition cell_ok (n m : Z) (cell : Z -> ascii -> dp -> Z -> dp) : Prop :=
  forall i c1 d j,
  0 <= i < n -> 0 <= j < m ->
  table_inv n m (m * i + j) d -> table_inv n m (m * i + j + 1) (cell i c1 d j).

(* the operations that can stand in a script of the alignment engines *)
Definition align_ops : list string := ["S"; "N"; "="; "X"; "I"; "D"]%string.

(* the test of the transposition rule for the cell that compares s1[r] with
   s2[c]: neither is a first symbol, and the two pairs are crossed *)
Definition transposed (s1 s2 : list ascii) (r c : nat) : bool :=
  negb (r =? 0)%nat && negb (c =? 0)%nat
  && Ascii.eqb (nth r s1 zero) (nth (Nat.pred c) s2 zero)
  && Ascii.eqb (nth (Nat.pred r) s1 zero) (nth c s2 zero).

(* rows r and r-1 of the table in the docstring of
   damerau_levenshtein_distance *)
Fixpoint dl_rows (s1 s2 : list ascii) (r : nat) : (nat -> Z) * (nat -> Z) :=
  match r with
  | O => (fun c => Z.of_nat c, fun _ => 0)
  | S r' =>
    let prev1 := fst (dl_rows s1 s2 r') in
    let prev2 := snd (dl_rows s1 s2 r') in
    (fix row (c : nat) : Z :=
       match c with
       | O => Z.of_nat (S r')
       | S c' =>
         let match_ := prev1 c' + sub_cost s1 s2 r' c' in
         min4 match_ (row c' + 1) (prev1 (S c') + 1)
           (if transposed s1 s2 r' c' then prev2 (Nat.pred c') + 1
            else match_)
       end,
     prev1)
  end.

(* cost[r,c] of that docstring *)
Definition dl_table (s1 s2 : list ascii) (r c : nat) : Z :=
  fst (dl_rows s1 s2 r) c.

(* the rows of damerau_levenshtein_distance after r turns of its outer
   loop: the current one holds row r of the table and, from the first turn
   on, previous1 holds row r-1 *)
Definition dl_rows_at (s1 s2 : list ascii) (width r : nat)
    (st : list Z * list Z * list Z) : Prop :=
  let '(current, previous1, previous2) := st in
  length current = width /\ length previous1 = width /\
  length previous2 = width /\
  (forall c, (c < width)%nat -> nth c current 0 = dl_table s1 s2 r c) /\
  ((0 < r)%nat ->
   forall c, (c < width)%nat ->
   nth c previous1 0 = dl_table s1 s2 (Nat.pred r) c).

(** * Properties *)

(** ** Ranges and blocks *)

Lemma range_of_nat (n : nat) : range (Z.of_nat n) = map Z.of_nat (seq 0 n).
Proof. unfold range. now rewrite Nat2Z.id. Qed.

Lemma load_of_nat {A} (d : A) (a : list A) (i : nat) :
  load d a (Z.of_nat i) = nth i a d.
Proof. unfold load. now rewrite Nat2Z.id. Qed.

Lemma store_nth_length {A} (a : list A) i v :
  length (store_nth a i v) = length a.
Proof.
  revert i; induction a as [|h t IH]; intros [|i]; simpl; auto.
Qed.

Lemma store_nth_length_eq {A} (a : list A) i v (w : nat) :
  length a = w -> length (store_nth a i v) = w.
Proof. now rewrite store_nth_length. Qed.

Lemma nth_store_nth_same {A} (a : list A) i v d :
  (i < length a)%nat -> nth i (store_nth a i v) d = v.
Proof.
  revert i; induction a as [|h t IH]; intros [|i] Hi; simpl in *;
    try lia; auto.
  apply IH; lia.
Qed.

Lemma nth_store_nth_other {A} (a : list A) i k v d :
  i <> k -> nth k (store_nth a i v) d = nth k a d.
Proof.
  revert i k; induction a as [|h t IH]; intros [|i] [|k] Hik; simpl;
    auto; try congruence.
Qed.

(** ** hamming_distance *)

Lemma hamming_fold (s1 s2 : list ascii) (l : list nat) (d : Z) :
  fold_left (hamming_step s1 s2) (map Z.of_nat l) d
  = d + Z.of_nat (length (filter
          (fun i => negb (Ascii.eqb (nth i s1 zero) (nth i s2 zero))) l)).
Proof.
  revert d; induction l as [|i l IH]; intros d; simpl.
  - lia.
  - rewrite IH. unfold hamming_step, char_at. rewrite !load_of_nat.
    destruct (negb (Ascii.eqb (nth i s1 zero) (nth i s2 zero))); simpl length;
      lia.
Qed.

(** C5. On sequences of equal length hamming_distance returns the number of
    positions at which they differ (so it does not fail there); on sequences
    of different lengths it raises ValueError('Length mismatch') and returns
    no count. *)
Theorem hamming_distance_spec (A B : list ascii) :
  (length A = length B -> hamming_distance A B = Ok (count_diff A B)) /\
  (length A <> length B ->
   hamming_distance A B = ValueError "Length mismatch"%string).
Proof.
  unfold hamming_distance, PyString_Size. split; intros H.
  - rewrite H, Z.eqb_refl. simpl. rewrite <- H, range_of_nat, hamming_fold.
    reflexivity.
  - destruct (Z.eqb_spec (Z.of_nat (length A)) (Z.of_nat (length B))) as [E|E].
    + apply Nat2Z.inj in E. contradiction.
    + reflexivity.
Qed.

Lemma hamming_distance_spec_witness :
  hamming_distance (bytes "abb") (bytes "abc") = Ok 1 /\
  hamming_distance (bytes "a") (bytes "ab")
  = ValueError "Length mismatch"%string.
Proof.
  split.
  - exact (proj1 (hamming_distance_spec (bytes "abb") (bytes "abc"))
             eq_refl).
  - apply (proj2 (hamming_distance_spec (bytes "a") (bytes "ab"))).
    simpl. lia.
Defined.

(** ** The worked cases of the distance engines *)

(** C8. levenshtein_distance('ac','abc') is 1, levenshtein_distance('ba','ab')
    is 2, damerau_levenshtein_distance('ba','ab') is 1 and
    damerau_levenshtein_distance('fee','deed') is 2. *)
Theorem distance_worked_cases :
  levenshtein_distance (bytes "ac") (bytes "abc") = 1 /\
  levenshtein_distance (bytes "ba") (bytes "ab") = 2 /\
  damerau_levenshtein_distance (bytes "ba") (bytes "ab") = 1 /\
  damerau_levenshtein_distance (bytes "fee") (bytes "deed") = 2.
Proof. repeat split; vm_compute; reflexivity. Qed.

(** ** reduce_match *)

(** C7, at the input of the docstring: reduce_match('abc','abc') is
    documented to return ('', '', 3).  The first loop ends without a break
    and leaves [i] at 2, the last value of range(3), so the slices start at 2:
    the code returns ('c', 'c', 2). *)
Theorem reduce_match_equal_inputs :
  reduce_match (bytes "abc") (bytes "abc") = (bytes "c", bytes "c", 2) /\
  reduce_match (bytes "abc") (bytes "ac") = (bytes "bc", bytes "c", 1).
Proof. split; vm_compute; reflexivity. Qed.

(** C2, at an input with an empty second sequence: neither loop of
    reduce_match runs on ('ab',''), [j] keeps its initial value l1-1 = 1 and
    the first slice is s1[0:1].  The distance of the reduced pair is 1, that
    of the pair itself is 2, and both engines return 1. *)
Theorem reduce_match_changes_distance :
  reduce_match (bytes "ab") (bytes "") = (bytes "a", bytes "", 0) /\
  levenshtein_core (bytes "a") (bytes "") = 1 /\
  levenshtein_core (bytes "ab") (bytes "") = 2 /\
  levenshtein_distance (bytes "ab") (bytes "") = 1 /\
  damerau_levenshtein_core (bytes "a") (bytes "") = 1 /\
  damerau_levenshtein_core (bytes "ab") (bytes "") = 2 /\
  damerau_levenshtein_distance (bytes "ab") (bytes "") = 1.
Proof. repeat split; vm_compute; reflexivity. Qed.

(** ** The worked cases of the alignment engine *)

(** C1. smith_waterman('b','abc') returns the score 1 and the script
    N*1, =*1, N*1, printed 1N1=1N; smith_waterman('abcbd','acd',
    match_score=2) returns the score 4 and the script printed 1=1D1=1D1=. *)
Theorem smith_waterman_worked_cases :
  smith_waterman (bytes "b") (bytes "abc") 1 (-1) (-1)
  = Ok (1, [mkCigarOp "N" 1; mkCigarOp "=" 1; mkCigarOp "N" 1]) /\
  cigar_to_string [mkCigarOp "N" 1; mkCigarOp "=" 1; mkCigarOp "N" 1]
  = "1N1=1N"%string /\
  smith_waterman (bytes "abcbd") (bytes "acd") 2 (-1) (-1)
  = Ok (4, [mkCigarOp "=" 1; mkCigarOp "D" 1; mkCigarOp "=" 1;
            mkCigarOp "D" 1; mkCigarOp "=" 1]) /\
  cigar_to_string [mkCigarOp "=" 1; mkCigarOp "D" 1; mkCigarOp "=" 1;
                   mkCigarOp "D" 1; mkCigarOp "=" 1]
  = "1=1D1=1D1="%string.
Proof. repeat split; vm_compute; reflexivity. Qed.

(** C3. With gap_open_score equal to gap_extend_score,
    smith_waterman_gotoh is the call of smith_waterman with that value as
    gap_score: same score, same script, same failure, whatever the sequences
    and the match and mismatch scores; the affine-gap computation is not
    run. *)
Theorem gotoh_equal_gaps_delegates (s1 s2 : list ascii)
    (match_score mismatch_score gap : Z) :
  smith_waterman_gotoh s1 s2 match_score mismatch_score gap gap
  = smith_waterman s1 s2 match_score mismatch_score gap.
Proof.
  unfold smith_waterman_gotoh. now rewrite Z.eqb_refl.
Qed.

(** C4, at two inputs.
    smith_waterman('ab','aabc') returns the score 2 with the script
    N*1, =*1, X*1, N*1, whose operations add up to 0: _roll_cigar lowers [m]
    in its loop of leading 'N' and then reads edits[m*i+j] with the lowered
    [m], so for the cell of ('b','b') it reads the operation of a different
    cell.
    smith_waterman('axybc','abc') returns the score 2 with the script
    =*1, D*2, =*2, whose operations add up to 1: the cell of ('y','a') is
    clamped to 0, is recorded as 'D' by the final else, and the walk goes on
    through it to the first row. *)
Theorem script_score_differs :
  smith_waterman (bytes "ab") (bytes "aabc") 1 (-1) (-1)
  = Ok (2, [mkCigarOp "N" 1; mkCigarOp "=" 1; mkCigarOp "X" 1;
            mkCigarOp "N" 1]) /\
  script_score 1 (-1) (-1)
    [mkCigarOp "N" 1; mkCigarOp "=" 1; mkCigarOp "X" 1; mkCigarOp "N" 1]
  = 0 /\
  load zero (d_edits (sw_table (bytes "ab") (bytes "aabc") 1 (-1) (-1)))
    (4 * 1 + 2) = "="%char /\
  load zero (d_edits (sw_table (bytes "ab") (bytes "aabc") 1 (-1) (-1)))
    (3 * 1 + 2) = "X"%char /\
  smith_waterman (bytes "axybc") (bytes "abc") 1 (-1) (-1)
  = Ok (2, [mkCigarOp "=" 1; mkCigarOp "D" 2; mkCigarOp "=" 2]) /\
  script_score 1 (-1) (-1)
    [mkCigarOp "=" 1; mkCigarOp "D" 2; mkCigarOp "=" 2] = 1.
Proof. repeat split; vm_compute; reflexivity. Qed.

(** C10, at the smallest input with no matching symbol:
    smith_waterman('a','b') records 'D' in its single cell and keeps the
    best cell (0,0).  _roll_cigar allocates max2(1,1) = 1 cell; the walk
    writes 'D' to igar[0] and leaves j at 0, and the trailing loop then
    writes 'N' to igar[1], outside the block.  On a block of two cells the
    same loops end with k = 2. *)
Theorem roll_cigar_overruns :
  sw_table (bytes "a") (bytes "b") 1 (-1) (-1)
  = mkDp [0; 0; 0; 0] [] [] ["D"%char] 0 0 0 /\
  max2 1 1 = 1 /\
  walk_step ["D"%char] (mkRoll 1 1 0 0 0 [zero])
  = Ok (mkRoll 1 1 (-1) 0 1 ["D"%char]) /\
  emit "N" (mkRoll 1 1 (-1) 0 1 ["D"%char]) = OutOfBounds /\
  roll_trace 1 1 0 0 ["D"%char] = OutOfBounds /\
  roll_loops [zero; zero] 1 1 0 0 ["D"%char]
  = Ok (mkRoll 1 1 (-1) (-1) 2 ["D"%char; "N"%char]) /\
  smith_waterman (bytes "a") (bytes "b") 1 (-1) (-1) = OutOfBounds.
Proof. repeat split; vm_compute; reflexivity. Qed.

(** ** Damerau-Levenshtein against Levenshtein *)

Lemma min2_min (a b : Z) : min2 a b = Z.min a b.
Proof. unfold min2. destruct (Z.ltb_spec a b); lia. Qed.

Lemma min4_le_min3 (a b c t a' b' c' : Z) :
  a <= a' -> b <= b' -> c <= c' -> min4 a b c t <= min3 a' b' c'.
Proof. unfold min4, min3. rewrite !min2_min. lia. Qed.

Lemma store_of_nat {A} (a : list A) (k : nat) (v : A) :
  store a (Z.of_nat k) v = store_nth a k v.
Proof. unfold store. now rewrite Nat2Z.id. Qed.

Lemma cells_below (s1 s2 : list ascii) (i : Z) (c1 : ascii)
    (prev2 prev1 prev : list Z) (width : nat) :
  (forall k, nth k prev1 0 <= nth k prev 0) ->
  forall (len k : nat) (cur_d cur_l : list Z),
  length cur_d = width -> length cur_l = width -> (k + len < width)%nat ->
  (forall x, (x <= k)%nat -> nth x cur_d 0 <= nth x cur_l 0) ->
  let cur_d' := fold_left (dl_cell s1 s2 i c1 prev2 prev1)
                  (map Z.of_nat (seq k len)) cur_d in
  let cur_l' := fold_left (lev_cell c1 s2 prev)
                  (map Z.of_nat (seq k len)) cur_l in
  length cur_d' = width /\ length cur_l' = width /\
  forall x, (x <= k + len)%nat -> nth x cur_d' 0 <= nth x cur_l' 0.
Proof.
  intros Hprev len. induction len as [|len IH]; intros k cur_d cur_l Hd Hl Hk Hle.
  - simpl. repeat split; auto. intros x Hx. apply Hle. lia.
  - cbn [seq map fold_left].
    specialize (IH (S k)
      (dl_cell s1 s2 i c1 prev2 prev1 cur_d (Z.of_nat k))
      (lev_cell c1 s2 prev cur_l (Z.of_nat k))).
    replace (k + S len)%nat with (S k + len)%nat by lia.
    apply IH; clear IH.
    + unfold dl_cell, store. apply store_nth_length_eq. exact Hd.
    + unfold lev_cell, store. apply store_nth_length_eq. exact Hl.
    + lia.
    + intros x Hx. unfold dl_cell, lev_cell.
      replace (Z.of_nat k + 1) with (Z.of_nat (S k)) by lia.
      rewrite !store_of_nat, !load_of_nat.
      destruct (Nat.eq_dec x (S k)) as [->|Hne].
      * rewrite !nth_store_nth_same by lia.
        apply min4_le_min3.
        -- specialize (Hprev k). lia.
        -- specialize (Hle k (Nat.le_refl k)). lia.
        -- specialize (Hprev (S k)). lia.
      * rewrite !nth_store_nth_other by congruence. apply Hle. lia.
Qed.

Lemma row_below (s1 s2 : list ascii) (m : nat) (i : Z)
    (dl : list Z * list Z * list Z) (lev : list Z * list Z) :
  rows_below (S m) dl lev ->
  rows_below (S m) (dl_row s1 s2 (Z.of_nat m) dl i)
                   (lev_row s1 s2 (Z.of_nat m) lev i).
Proof.
  destruct dl as [[cur_d prev1_d] prev2_d], lev as [cur_l prev_l].
  intros (Hcd & Hp1 & Hp2 & Hcl & Hpl & Hle).
  unfold dl_row, lev_row, rows_below. rewrite range_of_nat.
  change 0 with (Z.of_nat 0). rewrite !store_of_nat.
  destruct (cells_below s1 s2 i (char_at s1 i) prev1_d cur_d cur_l (S m) Hle
              m 0%nat (store_nth prev2_d 0 (i + 1))
              (store_nth prev_l 0 (i + 1))) as (Ld & Ll & Hnew).
  - now apply store_nth_length_eq.
  - now apply store_nth_length_eq.
  - lia.
  - intros x Hx. assert (x = 0%nat) as -> by lia.
    rewrite !nth_store_nth_same by lia. lia.
  - repeat split; auto.
    intros k. destruct (Nat.le_gt_cases k m) as [Hk|Hk].
    + apply Hnew. lia.
    + rewrite !nth_overflow by lia. lia.
Qed.

Lemma rows_below_fold (s1 s2 : list ascii) (m : nat) (turns : list Z) :
  forall dl lev,
  rows_below (S m) dl lev ->
  rows_below (S m) (fold_left (dl_row s1 s2 (Z.of_nat m)) turns dl)
                   (fold_left (lev_row s1 s2 (Z.of_nat m)) turns lev).
Proof.
  induction turns as [|i turns IH]; intros dl lev H; simpl.
  - exact H.
  - apply IH. now apply row_below.
Qed.

Lemma range_length (n : nat) : length (range (Z.of_nat n)) = n.
Proof. rewrite range_of_nat, length_map, length_seq. reflexivity. Qed.

Lemma dl_dp_le_lev_dp (s1 s2 : list ascii) : dl_dp s1 s2 <= lev_dp s1 s2.
Proof.
  unfold dl_dp, lev_dp, PyString_Size, iota_row.
  pose proof (rows_below_fold s1 s2 (length s2)
                (range (Z.of_nat (length s1)))
                (range (Z.of_nat (length s2) + 1),
                 map (fun _ => 0) (range (Z.of_nat (length s2) + 1)),
                 map (fun _ => 0) (range (Z.of_nat (length s2) + 1)))
                (range (Z.of_nat (length s2) + 1),
                 map (fun _ => 0) (range (Z.of_nat (length s2) + 1)))) as H.
  destruct (fold_left (dl_row _ _ _) _ _) as [[cur_d p1] p2].
  destruct (fold_left (lev_row _ _ _) _ _) as [cur_l pl].
  rewrite !load_of_nat.
  apply H.
  replace (Z.of_nat (length s2) + 1) with (Z.of_nat (S (length s2))) by lia.
  unfold rows_below. rewrite !length_map, !range_length.
  repeat split; auto. intros k. lia.
Qed.

(* without a second sequence every turn only writes i+1 to current[0] *)
Lemma lev_rows_nil (s1 : list ascii) (n : nat) :
  exists x,
    fold_left (lev_row s1 [] 0) (map Z.of_nat (seq 0 n)) ([0], [0])
    = ([Z.of_nat n], [x]).
Proof.
  induction n as [|n [x IH]].
  - exists 0. reflexivity.
  - rewrite seq_S, map_app, fold_left_app, IH. simpl.
    exists (Z.of_nat n). unfold lev_row. simpl.
    replace (Z.of_nat n + 1) with (Z.pos (Pos.of_succ_nat n)) by lia.
    reflexivity.
Qed.

Lemma lev_dp_nil (s1 : list ascii) : lev_dp s1 [] = PyString_Size s1.
Proof.
  unfold lev_dp, PyString_Size. simpl length. simpl Z.of_nat.
  rewrite range_of_nat.
  destruct (lev_rows_nil s1 (length s1)) as [x E].
  change (iota_row 0) with [0].
  change (map (fun _ : Z => 0) (range (0 + 1))) with [0].
  rewrite E. reflexivity.
Qed.

Lemma dl_core_le_lev_core (s1 s2 : list ascii) :
  damerau_levenshtein_core s1 s2 <= levenshtein_core s1 s2.
Proof.
  assert (forall a b : list ascii, (length b <= length a)%nat ->
            match a with [] => PyString_Size b | _ => dl_dp a b end
            <= match b with [] => PyString_Size a | _ => lev_dp a b end) as H.
  { intros a b Hlen. destruct a as [|x a], b as [|y b]; simpl in Hlen;
      try lia.
    - rewrite <- (lev_dp_nil (x :: a)). apply dl_dp_le_lev_dp.
    - apply dl_dp_le_lev_dp. }
  unfold damerau_levenshtein_core, levenshtein_core, PyString_Size.
  destruct (Z.ltb_spec (Z.of_nat (length s1)) (Z.of_nat (length s2)));
    apply H; lia.
Qed.

(** C6. damerau_levenshtein_distance(A,B) is at most
    levenshtein_distance(A,B), for all sequences A and B. *)
Theorem damerau_le_levenshtein (A B : list ascii) :
  damerau_levenshtein_distance A B <= levenshtein_distance A B.
Proof.
  unfold damerau_levenshtein_distance, levenshtein_distance.
  destruct (reduce_match A B) as [[a b] k].
  apply dl_core_le_lev_core.
Qed.

(** ** The run-length encoder *)

Lemma bind_Ok {A B} (c : outcome A) (f : A -> outcome B) (b : B) :
  bind c f = Ok b -> exists a, c = Ok a /\ f a = Ok b.
Proof. destruct c; simpl; intros H; try discriminate. eauto. Qed.

Lemma _op_str_Ok (c : ascii) (s : string) :
  _op_str c = Ok s -> s = String c EmptyString.
Proof. unfold _op_str. destruct (known_op c); congruence. Qed.

Lemma no_repeat_snoc (l : list string) (a b : string) :
  no_repeat (l ++ [a]) -> a <> b -> no_repeat ((l ++ [a]) ++ [b]).
Proof.
  intros H Hab. induction l as [|x l IH].
  - simpl. auto.
  - destruct l as [|y l].
    + simpl in *. tauto.
    + change (x <> y /\ no_repeat ((y :: l) ++ [a])) in H.
      change (x <> y /\ no_repeat (((y :: l) ++ [a]) ++ [b])).
      split; [tauto | apply IH; tauto].
Qed.

Lemma expand_app (a b : list CigarOp) : expand (a ++ b) = expand a ++ expand b.
Proof. unfold expand. apply flat_map_app. Qed.

Lemma expand_so_far (o : ascii) (n : Z) (cigar : list CigarOp) :
  expand (so_far (o, n, cigar)) = expand cigar ++ repeat o (Z.to_nat n).
Proof.
  unfold so_far, pending. rewrite expand_app. f_equal.
  destruct (Z.eqb_spec n 0) as [->|Hn]; simpl.
  - reflexivity.
  - now rewrite app_nil_r.
Qed.

Lemma rle_step_inv (st st' : ascii * Z * list CigarOp) (c : ascii) :
  rle_step st c = Ok st' -> rle_inv st ->
  rle_inv st' /\ expand (so_far st') = expand (so_far st) ++ [c].
Proof.
  destruct st as [[o n] cigar]. unfold rle_step.
  intros Hstep (Hn & Hnil & Hpos & Hrep).
  destruct (Ascii.eqb_spec c o) as [Eco|Hco].
  - (* the run goes on *)
    subst c. injection Hstep as <-. split.
    + unfold rle_inv. split; [lia|]. split; [lia|].
      unfold so_far, pending in *.
      destruct (Z.eqb_spec (n + 1) 0) as [E|_]; [lia|].
      destruct (Z.eqb_spec n 0) as [->|Hn0].
      * rewrite (Hnil eq_refl). split; simpl; auto.
        constructor; simpl; [lia|constructor].
      * split.
        -- apply Forall_app in Hpos as [Hc _]. apply Forall_app. split; auto.
           constructor; simpl; [lia|constructor].
        -- rewrite map_app in *. exact Hrep.
    + rewrite !expand_so_far, <- app_assoc. f_equal.
      replace (Z.to_nat (n + 1)) with (S (Z.to_nat n)) by lia.
      simpl. apply repeat_cons.
  - (* a new run starts *)
    assert (st' = (c, 1, so_far (o, n, cigar))) as ->.
    { unfold so_far, pending. destruct (Z.eqb_spec n 0) as [->|Hn0];
        simpl in Hstep.
      - injection Hstep as <-. now rewrite app_nil_r.
      - apply bind_Ok in Hstep as (cg & Hcg & Hst).
        apply bind_Ok in Hcg as (s & Hs & Hcg).
        apply _op_str_Ok in Hs. subst s. congruence. }
    split.
    + unfold rle_inv. split; [lia|]. split; [lia|].
      change (so_far (c, 1, so_far (o, n, cigar)))
        with (so_far (o, n, cigar) ++ [mkCigarOp (String c EmptyString) 1]).
      split.
      * apply Forall_app. split; auto. constructor; simpl; [lia|constructor].
      * rewrite map_app. simpl map at 2.
        unfold so_far, pending in *.
        destruct (Z.eqb_spec n 0) as [->|Hn0].
        -- rewrite (Hnil eq_refl). simpl. exact I.
        -- rewrite map_app in *. apply no_repeat_snoc; auto.
           simpl. congruence.
    + rewrite expand_so_far. reflexivity.
Qed.

Lemma rle_fold_inv (syms : list ascii) :
  forall st st',
  foldM rle_step syms st = Ok st' -> rle_inv st ->
  rle_inv st' /\ expand (so_far st') = expand (so_far st) ++ syms.
Proof.
  induction syms as [|c syms IH]; intros st st' H Hinv; simpl in H.
  - injection H as <-. now rewrite app_nil_r.
  - apply bind_Ok in H as (st1 & H1 & H2).
    destruct (rle_step_inv _ _ _ H1 Hinv) as (Hinv1 & E1).
    destruct (IH _ _ H2 Hinv1) as (Hinv' & E').
    split; auto. rewrite E', E1, <- app_assoc. reflexivity.
Qed.

Lemma rle_flush_so_far (st : ascii * Z * list CigarOp) (script : list CigarOp) :
  rle_flush st = Ok script -> script = so_far st.
Proof.
  destruct st as [[o n] cigar]. unfold rle_flush, so_far, pending.
  destruct (Z.eqb_spec n 0) as [->|Hn]; simpl; intros H.
  - injection H as <-. now rewrite app_nil_r.
  - apply bind_Ok in H as (s & Hs & H). apply _op_str_Ok in Hs. congruence.
Qed.

(* what the encoder returns is maximal-run and expands to what it read *)
Lemma encode_runs_sound (syms : list ascii) (script : list CigarOp) :
  encode_runs syms = Ok script ->
  maximal_run script /\ expand script = syms.
Proof.
  unfold encode_runs. intros H.
  apply bind_Ok in H as (st & Hfold & Hflush).
  apply rle_flush_so_far in Hflush. subst script.
  destruct (rle_fold_inv syms (zero, 0, []) st Hfold) as (Hinv & E).
  - unfold rle_inv, maximal_run. simpl. repeat split; auto. lia.
  - destruct st as [[o n] cigar]. split; [apply Hinv | exact E].
Qed.

Lemma finish_script (n m : Z) (d : dp) (score : Z) (script : list CigarOp) :
  finish n m d = Ok (score, script) ->
  exists syms, encode_runs syms = Ok script.
Proof.
  unfold finish, _roll_cigar. intros H.
  apply bind_Ok in H as (sc & _ & H).
  apply bind_Ok in H as (cg & Hcg & H).
  injection H as _ <-.
  apply bind_Ok in Hcg as (s & _ & Hcg). eauto.
Qed.

(** C9. A script returned by smith_waterman or by smith_waterman_gotoh is
    maximal-run encoded: every count is positive and no two neighbouring
    entries carry the same operation; expanding it to one symbol per
    position and encoding that again gives the same script. *)
Theorem returned_script_maximal_run (s1 s2 : list ascii)
    (match_score mismatch_score gap_score gap_extend_score : Z)
    (score : Z) (script : list CigarOp) :
  smith_waterman s1 s2 match_score mismatch_score gap_score
    = Ok (score, script) \/
  smith_waterman_gotoh s1 s2 match_score mismatch_score
    gap_score gap_extend_score = Ok (score, script) ->
  maximal_run script /\ encode_runs (expand script) = Ok script.
Proof.
  intros H.
  assert (exists syms, encode_runs syms = Ok script) as [syms Hs].
  { destruct H as [H|H].
    - eapply finish_script. exact H.
    - unfold smith_waterman_gotoh in H.
      destruct (gap_score =? gap_extend_score);
        eapply finish_script; exact H. }
  destruct (encode_runs_sound syms script Hs) as (Hmax & E).
  split; [exact Hmax | now rewrite E].
Qed.

Lemma returned_script_maximal_run_witness :
  maximal_run [mkCigarOp "=" 1; mkCigarOp "D" 2; mkCigarOp "=" 1;
               mkCigarOp "D" 2; mkCigarOp "=" 1] /\
  encode_runs (expand [mkCigarOp "=" 1; mkCigarOp "D" 2; mkCigarOp "=" 1;
                       mkCigarOp "D" 2; mkCigarOp "=" 1])
  = Ok [mkCigarOp "=" 1; mkCigarOp "D" 2; mkCigarOp "=" 1;
        mkCigarOp "D" 2; mkCigarOp "=" 1].
Proof.
  apply (returned_script_maximal_run (bytes "abbcbbd") (bytes "acd")
           4 (-1) (-2) (-1) 6).
  right. vm_compute. reflexivity.
Defined.

(** ** The loops of _roll_cigar end

    Every while loop of [_roll_cigar] is run with the bound given to [loop];
    the bound is never the reason a call stops. *)

Lemma bind_fuel {A B} (c : outcome A) (f : A -> outcome B) :
  c <> OutOfFuel -> (forall a, f a <> OutOfFuel) -> bind c f <> OutOfFuel.
Proof. destruct c; simpl; auto; congruence. Qed.

Lemma while_fuel {S} (measure : S -> Z) (cond : S -> bool)
    (body : S -> outcome S) :
  (forall s, cond s = true -> 0 < measure s) ->
  (forall s s', cond s = true -> body s = Ok s' -> measure s' < measure s) ->
  (forall s, body s <> OutOfFuel) ->
  forall fuel s, measure s <= Z.of_nat fuel ->
  while_ fuel cond body s <> OutOfFuel.
Proof.
  intros Hpos Hdec Hbody. induction fuel as [|fuel IH]; intros s Hle; simpl;
    destruct (cond s) eqn:C; try discriminate.
  - specialize (Hpos s C). lia.
  - destruct (body s) as [s'| | |] eqn:B; simpl; try discriminate.
    + apply IH. specialize (Hdec s s' C B). lia.
    + now apply Hbody in B.
Qed.

Lemma loop_fuel {S} (measure : S -> Z) (cond : S -> bool)
    (body : S -> outcome S) (s : S) :
  (forall s, cond s = true -> 0 < measure s) ->
  (forall s s', cond s = true -> body s = Ok s' -> measure s' < measure s) ->
  (forall s, body s <> OutOfFuel) ->
  loop measure cond body s <> OutOfFuel.
Proof.
  intros Hpos Hdec Hbody. unfold loop.
  apply (while_fuel measure); auto. lia.
Qed.

Lemma emit_Ok (c : ascii) (s s' : roll) :
  emit c s = Ok s' ->
  r_n s' = r_n s /\ r_m s' = r_m s /\ r_i s' = r_i s /\ r_j s' = r_j s /\
  r_k s' = r_k s + 1.
Proof.
  unfold emit, store_chk.
  destruct ((0 <=? r_k s) && (r_k s <? Z.of_nat (length (r_igar s))));
    simpl; intros H; [|discriminate].
  injection H as <-. simpl. auto.
Qed.

Lemma emit_fuel (c : ascii) (s : roll) : emit c s <> OutOfFuel.
Proof.
  unfold emit, store_chk.
  destruct ((0 <=? r_k s) && (r_k s <? Z.of_nat (length (r_igar s))));
    simpl; discriminate.
Qed.

Lemma load_chk_fuel {A} (a : list A) (i : Z) : load_chk a i <> OutOfFuel.
Proof.
  unfold load_chk.
  destruct ((0 <=? i) && (i <? Z.of_nat (length a))); [|discriminate].
  destruct (nth_error a (Z.to_nat i)); discriminate.
Qed.

Lemma walk_step_fuel (edits : list ascii) (s : roll) :
  walk_step edits s <> OutOfFuel.
Proof.
  unfold walk_step. apply bind_fuel; [apply load_chk_fuel|]. intros o.
  apply bind_fuel; [apply emit_fuel|]. intros [n m i j k igar].
  repeat match goal with |- context [if ?b then _ else _] => destruct b end;
    discriminate.
Qed.

Lemma walk_step_Ok (edits : list ascii) (s s' : roll) :
  walk_step edits s = Ok s' -> r_i s' + r_j s' < r_i s + r_j s.
Proof.
  unfold walk_step. intros H.
  apply bind_Ok in H as (o & _ & H).
  apply bind_Ok in H as (s1 & H1 & H).
  apply emit_Ok in H1 as (_ & _ & Hi & Hj & _).
  destruct s1 as [n m i j k igar]. simpl in Hi, Hj. rewrite <- Hi, <- Hj.
  repeat match type of H with
         | (if ?b then _ else _) = _ => destruct b
         end; try discriminate; injection H as <-; simpl; lia.
Qed.

Ltac emit_body :=
  intros s s' C H; apply bind_Ok in H as (s1 & H1 & H);
  apply emit_Ok in H1 as (Hn & Hm & Hi & Hj & _);
  injection H as <-; simpl; lia.

Lemma roll_loops_fuel (igar : list ascii) (n m i j : Z) (edits : list ascii) :
  roll_loops igar n m i j edits <> OutOfFuel.
Proof.
  unfold roll_loops.
  repeat (apply bind_fuel; [|intros ?]); apply loop_fuel;
    try (intros s C; simpl in C; lia);
    try emit_body;
    try (intros s; apply bind_fuel; [apply emit_fuel | discriminate]).
  - intros s s' C H. apply walk_step_Ok in H. lia.
  - apply walk_step_fuel.
Qed.

Lemma rle_step_fuel (st : ascii * Z * list CigarOp) (c : ascii) :
  rle_step st c <> OutOfFuel.
Proof.
  destruct st as [[o n] cigar]. unfold rle_step, _op_str.
  destruct (Ascii.eqb c o); [discriminate|].
  destruct (negb (n =? 0)); simpl; [|discriminate].
  destruct (known_op o); simpl; discriminate.
Qed.

Lemma foldM_fuel {S X} (f : S -> X -> outcome S) (l : list X) :
  (forall s x, f s x <> OutOfFuel) -> forall s, foldM f l s <> OutOfFuel.
Proof.
  intros Hf. induction l as [|x l IH]; intros s; simpl.
  - discriminate.
  - apply bind_fuel; auto.
Qed.

Lemma finish_fuel (n m : Z) (d : dp) : finish n m d <> OutOfFuel.
Proof.
  unfold finish, _roll_cigar, roll_trace, encode_runs.
  apply bind_fuel; [apply load_chk_fuel|]. intros score.
  apply bind_fuel; [|discriminate].
  apply bind_fuel; [apply roll_loops_fuel|]. intros s.
  apply bind_fuel; [apply foldM_fuel, rle_step_fuel|].
  intros [[o c] cigar]. unfold rle_flush, _op_str.
  destruct (negb (c =? 0)); simpl; [|discriminate].
  destruct (known_op o); simpl; discriminate.
Qed.

(* a call of either engine returns, raises or leaves a block; the loops of
   the backtracker end within their bounds *)
Theorem alignment_calls_end (s1 s2 : list ascii)
    (match_score mismatch_score gap_open_score gap_extend_score : Z) :
  smith_waterman s1 s2 match_score mismatch_score gap_open_score
    <> OutOfFuel /\
  smith_waterman_gotoh s1 s2 match_score mismatch_score
    gap_open_score gap_extend_score <> OutOfFuel.
Proof.
  unfold smith_waterman_gotoh, gotoh_affine, smith_waterman.
  destruct (gap_open_score =? gap_extend_score); split; apply finish_fuel.
Qed.

(** ** More on hamming_distance *)

Lemma hamming_equal_length (A B : list ascii) :
  length A = length B -> hamming_distance A B = Ok (count_diff A B).
Proof.
  intros H. unfold hamming_distance, PyString_Size.
  rewrite H, Z.eqb_refl. simpl. rewrite <- H, range_of_nat, hamming_fold.
  reflexivity.
Qed.

Lemma hamming_other_length (A B : list ascii) :
  length A <> length B ->
  hamming_distance A B = ValueError "Length mismatch"%string.
Proof.
  intros H. unfold hamming_distance, PyString_Size.
  destruct (Z.eqb_spec (Z.of_nat (length A)) (Z.of_nat (length B))) as [E|E].
  - apply Nat2Z.inj in E. contradiction.
  - reflexivity.
Qed.

Lemma hamming_Ok_length (A B : list ascii) (d : Z) :
  hamming_distance A B = Ok d -> length A = length B /\ d = count_diff A B.
Proof.
  intros H. destruct (Nat.eq_dec (length A) (length B)) as [E|E].
  - rewrite (hamming_equal_length A B E) in H. split; congruence.
  - rewrite (hamming_other_length A B E) in H. discriminate.
Qed.

Lemma ascii_eqb_sym (a b : ascii) : Ascii.eqb a b = Ascii.eqb b a.
Proof.
  destruct (Ascii.eqb_spec a b) as [->|H].
  - now rewrite Ascii.eqb_refl.
  - symmetry. apply Ascii.eqb_neq. congruence.
Qed.

Lemma count_diff_sym (A B : list ascii) :
  length A = length B -> count_diff A B = count_diff B A.
Proof.
  intros H. unfold count_diff. rewrite H. do 2 f_equal.
  apply filter_ext. intros i. now rewrite ascii_eqb_sym.
Qed.

(** X1. hamming_distance does not depend on the order of its arguments:
    the same count, or the same ValueError. *)
Theorem hamming_distance_sym (A B : list ascii) :
  hamming_distance A B = hamming_distance B A.
Proof.
  destruct (Nat.eq_dec (length A) (length B)) as [E|E].
  - rewrite (hamming_equal_length A B E), (hamming_equal_length B A (eq_sym E)).
    now rewrite count_diff_sym.
  - rewrite (hamming_other_length A B E), (hamming_other_length B A); auto.
Qed.

Lemma filter_length_le {X} (f : X -> bool) (l : list X) :
  (length (filter f l) <= length l)%nat.
Proof.
  induction l as [|x l IH]; simpl; [lia|]. destruct (f x); simpl; lia.
Qed.

Lemma filter_nil_all {X} (f : X -> bool) (l : list X) :
  length (filter f l) = 0%nat <-> forall x, In x l -> f x = false.
Proof.
  induction l as [|x l IH]; simpl.
  - split; auto. intros _ x [].
  - destruct (f x) eqn:E; simpl; split.
    + discriminate.
    + intros H. specialize (H x (or_introl eq_refl)). congruence.
    + intros H y [<-|Hy]; auto. now apply IH.
    + intros H. apply IH. auto.
Qed.

(** X2. hamming_distance returns 0 exactly on two equal sequences. *)
Theorem hamming_distance_zero (A B : list ascii) :
  hamming_distance A B = Ok 0 <-> A = B.
Proof.
  split.
  - intros H. apply hamming_Ok_length in H as (Hlen & H0).
    unfold count_diff in H0.
    assert (length (filter (fun i => negb (Ascii.eqb (nth i A zero)
              (nth i B zero))) (seq 0 (length A))) = 0%nat) as Hz by lia.
    rewrite filter_nil_all in Hz.
    apply (nth_ext A B zero zero Hlen). intros i Hi.
    specialize (Hz i). rewrite in_seq in Hz.
    apply Ascii.eqb_eq. destruct (Ascii.eqb (nth i A zero) (nth i B zero));
      auto. simpl in Hz. symmetry. apply Hz. lia.
  - intros <-. rewrite hamming_equal_length by reflexivity. f_equal.
    unfold count_diff.
    assert (length (filter (fun i => negb (Ascii.eqb (nth i A zero)
              (nth i A zero))) (seq 0 (length A))) = 0%nat) as Hz.
    { apply filter_nil_all. intros i _. now rewrite Ascii.eqb_refl. }
    lia.
Qed.

Lemma hamming_distance_zero_witness :
  hamming_distance (bytes "abc") (bytes "abc") = Ok 0.
Proof.
  apply (proj2 (hamming_distance_zero (bytes "abc") (bytes "abc"))).
  reflexivity.
Defined.

(** X3. A count returned by hamming_distance lies between 0 and the common
    length of the two sequences. *)
Theorem hamming_distance_range (A B : list ascii) (d : Z) :
  hamming_distance A B = Ok d ->
  0 <= d <= PyString_Size A /\ PyString_Size A = PyString_Size B.
Proof.
  intros H. apply hamming_Ok_length in H as (Hlen & ->).
  unfold count_diff, PyString_Size. split; [|now rewrite Hlen].
  pose proof (filter_length_le (fun i => negb (Ascii.eqb (nth i A zero)
                (nth i B zero))) (seq 0 (length A))) as Hle.
  rewrite length_seq in Hle. lia.
Qed.

Lemma hamming_distance_range_witness :
  0 <= 1 <= PyString_Size (bytes "abb") /\
  PyString_Size (bytes "abb") = PyString_Size (bytes "abc").
Proof.
  apply (hamming_distance_range (bytes "abb") (bytes "abc") 1).
  reflexivity.
Defined.

Lemma filter_length_cover {X} (f g h : X -> bool) (l : list X) :
  (forall x, f x = true -> g x = true \/ h x = true) ->
  (length (filter f l) <= length (filter g l) + length (filter h l))%nat.
Proof.
  intros H. induction l as [|x l IH]; simpl; [lia|].
  specialize (H x).
  destruct (f x), (g x), (h x); simpl; try lia.
Qed.

(** X4. The triangle inequality: when hamming_distance returns d1 on (A,B)
    and d2 on (B,C), it returns on (A,C) a count of at most d1 + d2. *)
Theorem hamming_distance_triangle (A B C : list ascii) (d1 d2 : Z) :
  hamming_distance A B = Ok d1 -> hamming_distance B C = Ok d2 ->
  exists d3, hamming_distance A C = Ok d3 /\ d3 <= d1 + d2.
Proof.
  intros H1 H2.
  apply hamming_Ok_length in H1 as (L1 & ->).
  apply hamming_Ok_length in H2 as (L2 & ->).
  exists (count_diff A C). split.
  - apply hamming_equal_length. congruence.
  - unfold count_diff. rewrite <- L1.
    pose proof (filter_length_cover
      (fun i => negb (Ascii.eqb (nth i A zero) (nth i C zero)))
      (fun i => negb (Ascii.eqb (nth i A zero) (nth i B zero)))
      (fun i => negb (Ascii.eqb (nth i B zero) (nth i C zero)))
      (seq 0 (length A))) as Hc.
    assert (forall i, negb (Ascii.eqb (nth i A zero) (nth i C zero)) = true ->
              negb (Ascii.eqb (nth i A zero) (nth i B zero)) = true \/
              negb (Ascii.eqb (nth i B zero) (nth i C zero)) = true) as Hx.
    { intros i. destruct (Ascii.eqb_spec (nth i A zero) (nth i B zero)) as [->|];
        simpl; auto. }
    specialize (Hc Hx). lia.
Qed.

Lemma hamming_distance_triangle_witness :
  exists d3, hamming_distance (bytes "abc") (bytes "xyc") = Ok d3 /\
             d3 <= 1 + 1.
Proof.
  apply (hamming_distance_triangle (bytes "abc") (bytes "xbc") (bytes "xyc")
           1 1); reflexivity.
Defined.

(** ** More on reduce_match *)

Lemma min2_of_nat (a b : nat) :
  min2 (Z.of_nat a) (Z.of_nat b) = Z.of_nat (Nat.min a b).
Proof. rewrite min2_min. lia. Qed.

Lemma char_at_of_nat (s : list ascii) (i : nat) :
  char_at s (Z.of_nat i) = nth i s zero.
Proof. apply load_of_nat. Qed.

Lemma py_slice_nat {A} (s : list A) (lo hi : nat) :
  (lo <= hi <= length s)%nat ->
  py_slice s (Z.of_nat lo) (Z.of_nat hi) = firstn (hi - lo) (skipn lo s).
Proof.
  intros H. unfold py_slice.
  destruct (Z.ltb_spec (Z.of_nat hi) 0); [lia|].
  destruct (Z.ltb_spec (Z.of_nat lo) 0); [lia|].
  rewrite !Z.min_l by lia. rewrite Nat2Z.id. f_equal. lia.
Qed.

Lemma py_slice_length {A} (s : list A) (lo hi : Z) :
  (length (py_slice s lo hi) <= length s)%nat.
Proof.
  unfold py_slice. rewrite length_firstn, length_skipn. lia.
Qed.

(* what a scan over a non-empty range leaves in its variable *)
Lemma scan_range_spec (stop : Z -> bool) (len a : nat) (v0 : Z) :
  (0 < len)%nat ->
  exists k : nat,
    scan_range stop (map Z.of_nat (seq a len)) v0 = Z.of_nat k /\
    (a <= k < a + len)%nat /\
    (forall x, (a <= x < k)%nat -> stop (Z.of_nat x) = false) /\
    (stop (Z.of_nat k) = true \/ k = (a + len - 1)%nat).
Proof.
  revert a v0. induction len as [|len IH]; intros a v0 Hlen; [lia|].
  simpl. destruct (stop (Z.of_nat a)) eqn:Ea.
  - exists a. repeat split; auto; try lia; intros x Hx; lia.
  - destruct len as [|len].
    + simpl. exists a. repeat split; auto; try lia; intros x Hx; lia.
    + destruct (IH (S a) (Z.of_nat a)) as (k & Ek & Hk & Hbelow & Hstop);
        [lia|].
      exists k. repeat split; auto; try lia.
      * intros x Hx. destruct (Nat.eq_dec x a) as [->|Hne]; auto.
        apply Hbelow. lia.
      * destruct Hstop as [Hs|Hs]; [now left | right; lia].
Qed.

Lemma scan_range_ext (f g : Z -> bool) (l : list Z) (v0 : Z) :
  (forall x, f x = g x) -> scan_range f l v0 = scan_range g l v0.
Proof.
  intros H. revert v0. induction l as [|x l IH]; intros v0; simpl; auto.
  rewrite H. destruct (g x); auto.
Qed.

Lemma scan_range_start (f : Z -> bool) (l : list Z) (v0 v1 : Z) :
  l <> [] -> scan_range f l v0 = scan_range f l v1.
Proof. destruct l; simpl; congruence. Qed.

Lemma firstn_agree {A} (d : A) (k : nat) :
  forall a b : list A,
  (k <= length a)%nat -> (k <= length b)%nat ->
  (forall x, (x < k)%nat -> nth x a d = nth x b d) ->
  firstn k a = firstn k b.
Proof.
  induction k as [|k IH]; intros a b Ha Hb H; simpl; auto.
  destruct a as [|x a], b as [|y b]; simpl in *; try lia.
  f_equal.
  - apply (H 0%nat). lia.
  - apply IH; try lia. intros z Hz. apply (H (S z)). lia.
Qed.

Lemma skipn_agree {A} (d : A) (k : nat) (a b : list A) :
  (k <= length a)%nat -> (k <= length b)%nat ->
  (forall y, (y < k)%nat ->
     nth (length a - y - 1) a d = nth (length b - y - 1) b d) ->
  skipn (length a - k) a = skipn (length b - k) b.
Proof.
  intros Ha Hb H. apply (nth_ext _ _ d d).
  - rewrite !length_skipn. lia.
  - intros x Hx. rewrite length_skipn in Hx. rewrite !nth_skipn.
    specialize (H (k - 1 - x)%nat).
    replace (length a - k + x)%nat with (length a - (k - 1 - x) - 1)%nat
      by lia.
    replace (length b - k + x)%nat with (length b - (k - 1 - x) - 1)%nat
      by lia.
    apply H. lia.
Qed.

Lemma eqb_stop (a b : ascii) : negb (Ascii.eqb a b) = false -> a = b.
Proof.
  destruct (Ascii.eqb_spec a b); simpl; auto. discriminate.
Qed.

(* reduce_match on two non-empty sequences, in natural numbers *)
Lemma reduce_match_scan (A B : list ascii) :
  A <> [] -> B <> [] ->
  exists ki kj : nat,
    (ki + kj < Nat.min (length A) (length B))%nat /\
    reduce_match A B
    = (firstn (length A - kj - ki) (skipn ki A),
       firstn (length B - kj - ki) (skipn ki B), Z.of_nat ki) /\
    firstn ki A = firstn ki B /\
    skipn (length A - kj) A = skipn (length B - kj) B /\
    (nth ki A zero <> nth ki B zero \/
     ki = (Nat.min (length A) (length B) - 1)%nat) /\
    (nth (length A - kj - 1) A zero <> nth (length B - kj - 1) B zero \/
     (ki + kj)%nat = (Nat.min (length A) (length B) - 1)%nat).
Proof.
  intros HA HB.
  assert (0 < length A)%nat as LA by (destruct A; simpl; [congruence|lia]).
  assert (0 < length B)%nat as LB by (destruct B; simpl; [congruence|lia]).
  unfold reduce_match, PyString_Size.
  rewrite min2_of_nat, range_of_nat.
  destruct (scan_range_spec
              (fun i => negb (Ascii.eqb (char_at A i) (char_at B i)))
              (Nat.min (length A) (length B)) 0 0)
    as (ki & Ei & Hki & Hpre & Hstopi); [lia|].
  rewrite Ei.
  replace (Z.of_nat (Nat.min (length A) (length B)) - Z.of_nat ki)
    with (Z.of_nat (Nat.min (length A) (length B) - ki)) by lia.
  rewrite range_of_nat.
  destruct (scan_range_spec
              (fun j => negb (Ascii.eqb
                 (char_at A (Z.of_nat (length A) - j - 1))
                 (char_at B (Z.of_nat (length B) - j - 1))))
              (Nat.min (length A) (length B) - ki) 0
              (Z.of_nat (length A) - 1))
    as (kj & Ej & Hkj & Hsuf & Hstopj); [lia|].
  rewrite Ej.
  exists ki, kj. split; [lia|]. split; [|split; [|split; [|split]]].
  - replace (Z.of_nat (length A) - Z.of_nat kj)
      with (Z.of_nat (length A - kj)) by lia.
    replace (Z.of_nat (length B) - Z.of_nat kj)
      with (Z.of_nat (length B - kj)) by lia.
    rewrite !py_slice_nat by lia.
    repeat f_equal; lia.
  - apply (firstn_agree zero); try lia.
    intros x Hx. specialize (Hpre x). rewrite !char_at_of_nat in Hpre.
    apply eqb_stop, Hpre. lia.
  - apply (skipn_agree zero); try lia.
    intros y Hy. specialize (Hsuf y).
    replace (Z.of_nat (length A) - Z.of_nat y - 1)
      with (Z.of_nat (length A - y - 1)) in Hsuf by lia.
    replace (Z.of_nat (length B) - Z.of_nat y - 1)
      with (Z.of_nat (length B - y - 1)) in Hsuf by lia.
    rewrite !char_at_of_nat in Hsuf. apply eqb_stop, Hsuf. lia.
  - destruct Hstopi as [Hs|Hs]; [left | right; lia].
    rewrite !char_at_of_nat in Hs. intros E. rewrite E, Ascii.eqb_refl in Hs.
    discriminate.
  - destruct Hstopj as [Hs|Hs]; [left | right; lia].
    replace (Z.of_nat (length A) - Z.of_nat kj - 1)
      with (Z.of_nat (length A - kj - 1)) in Hs by lia.
    replace (Z.of_nat (length B) - Z.of_nat kj - 1)
      with (Z.of_nat (length B - kj - 1)) in Hs by lia.
    rewrite !char_at_of_nat in Hs. intros E. rewrite E, Ascii.eqb_refl in Hs.
    discriminate.
Qed.

Lemma split3 {A} (s : list A) (lo hi : nat) :
  (lo <= hi <= length s)%nat ->
  s = firstn lo s ++ firstn (hi - lo) (skipn lo s) ++ skipn hi s.
Proof.
  intros H.
  rewrite <- (firstn_skipn lo s) at 1. f_equal.
  rewrite <- (firstn_skipn (hi - lo) (skipn lo s)) at 1. f_equal.
  rewrite skipn_skipn. f_equal. lia.
Qed.

Lemma reduce_match_nonempty_aux (A B : list ascii) :
  A <> [] -> B <> [] ->
  exists prefix a b suffix,
    reduce_match A B = (a, b, Z.of_nat (length prefix)) /\
    A = prefix ++ a ++ suffix /\ B = prefix ++ b ++ suffix /\
    a <> [] /\ b <> [].
Proof.
  intros HA HB.
  destruct (reduce_match_scan A B HA HB)
    as (ki & kj & Hlt & E & Hp & Hs & _ & _).
  exists (firstn ki A), (firstn (length A - kj - ki) (skipn ki A)),
         (firstn (length B - kj - ki) (skipn ki B)), (skipn (length A - kj) A).
  split; [|split; [|split; [|split]]].
  - rewrite E. rewrite length_firstn. do 2 f_equal. lia.
  - replace (length A - kj - ki)%nat with ((length A - kj) - ki)%nat by lia.
    apply split3. lia.
  - rewrite Hp, Hs.
    replace (length B - kj - ki)%nat with ((length B - kj) - ki)%nat by lia.
    apply split3. lia.
  - intros E0. apply (f_equal (@length ascii)) in E0.
    rewrite length_firstn, length_skipn in E0. simpl in E0. lia.
  - intros E0. apply (f_equal (@length ascii)) in E0.
    rewrite length_firstn, length_skipn in E0. simpl in E0. lia.
Qed.


(** X5. On two non-empty sequences reduce_match removes a prefix and a
    suffix that the two have in common and returns the length of the prefix;
    it never removes everything: both returned sequences are non-empty. *)
Theorem reduce_match_nonempty (A B : list ascii) :
  A <> [] -> B <> [] ->
  exists prefix a b suffix,
    reduce_match A B = (a, b, Z.of_nat (length prefix)) /\
    A = prefix ++ a ++ suffix /\ B = prefix ++ b ++ suffix /\
    a <> [] /\ b <> [].
Proof. apply reduce_match_nonempty_aux. Qed.

Lemma reduce_match_nonempty_witness :
  exists prefix a b suffix,
    reduce_match (bytes "abcdefg") (bytes "abcxxfg")
    = (a, b, Z.of_nat (length prefix)) /\
    bytes "abcdefg" = prefix ++ a ++ suffix /\
    bytes "abcxxfg" = prefix ++ b ++ suffix /\
    a <> [] /\ b <> [].
Proof.
  apply (reduce_match_nonempty (bytes "abcdefg") (bytes "abcxxfg"));
    discriminate.
Defined.

Lemma reduce_match_empty_aux (S : list ascii) :
  reduce_match [] S = ([], S, 0) /\
  reduce_match S [] = (firstn 1 S, [], 0).
Proof.
  split.
  - unfold reduce_match, PyString_Size. simpl length.
    change (Z.of_nat 0) with 0. rewrite min2_min.
    replace (Z.min 0 (Z.of_nat (length S))) with 0 by lia.
    simpl. f_equal. f_equal.
    unfold py_slice. simpl.
    destruct (Z.ltb_spec (Z.of_nat (length S) - -1) 0); [lia|].
    replace (Z.min 0 (Z.of_nat (length S))) with 0 by lia.
    rewrite Z.min_r by lia. rewrite Z.sub_0_r, Nat2Z.id. simpl.
    apply firstn_all.
  - unfold reduce_match, PyString_Size. simpl length.
    change (Z.of_nat 0) with 0. rewrite min2_min.
    replace (Z.min (Z.of_nat (length S)) 0) with 0 by lia.
    simpl.
    replace (Z.of_nat (length S) - (Z.of_nat (length S) - 1)) with 1 by lia.
    f_equal. f_equal.
    + unfold py_slice. simpl.
      destruct S as [|x S]; [reflexivity|].
      rewrite Z.min_l by (simpl length; lia). reflexivity.
    + unfold py_slice. simpl. now rewrite firstn_nil.
Qed.


(** X6. With an empty first sequence reduce_match returns the pair as it is;
    with an empty second sequence it returns only the first symbol of the
    first sequence (the variable of the second loop keeps its initial value
    l1-1 when the loop does not run). *)
Theorem reduce_match_empty (S : list ascii) :
  reduce_match [] S = ([], S, 0) /\
  reduce_match S [] = (firstn 1 S, [], 0).
Proof. apply reduce_match_empty_aux. Qed.

(** X7. How far reduce_match goes on two non-empty sequences, l being the
    length of the shorter one: the returned sequences start with different
    symbols unless the returned prefix length is l-1, and they end with
    different symbols unless l-1 symbols were removed in all. *)
Theorem reduce_match_stops (A B a b : list ascii) (k : Z) :
  A <> [] -> B <> [] -> reduce_match A B = (a, b, k) ->
  let l := Z.of_nat (Nat.min (length A) (length B)) in
  (nth 0 a zero <> nth 0 b zero \/ k = l - 1) /\
  (nth (length a - 1) a zero <> nth (length b - 1) b zero \/
   Z.of_nat (length A) - Z.of_nat (length a) = l - 1) /\
  Z.of_nat (length A) - Z.of_nat (length a)
  = Z.of_nat (length B) - Z.of_nat (length b).
Proof.
  intros HA HB E.
  destruct (reduce_match_scan A B HA HB)
    as (ki & kj & Hlt & E' & _ & _ & Hi & Hj).
  rewrite E in E'. injection E' as -> -> ->.
  rewrite !length_firstn, !length_skipn.
  rewrite (Nat.min_l (length A - kj - ki)), (Nat.min_l (length B - kj - ki))
    by lia.
  split; [|split].
  - destruct Hi as [Hi|Hi]; [left | right; lia].
    rewrite !nth_firstn.
    destruct (Nat.ltb_spec 0 (length A - kj - ki)); [|lia].
    destruct (Nat.ltb_spec 0 (length B - kj - ki)); [|lia].
    rewrite !nth_skipn, !Nat.add_0_r. exact Hi.
  - destruct Hj as [Hj|Hj]; [left | right; lia].
    rewrite !nth_firstn.
    destruct (Nat.ltb_spec (length A - kj - ki - 1) (length A - kj - ki));
      [|lia].
    destruct (Nat.ltb_spec (length B - kj - ki - 1) (length B - kj - ki));
      [|lia].
    rewrite !nth_skipn.
    replace (ki + (length A - kj - ki - 1))%nat with (length A - kj - 1)%nat
      by lia.
    replace (ki + (length B - kj - ki - 1))%nat with (length B - kj - 1)%nat
      by lia.
    exact Hj.
  - lia.
Qed.

Lemma reduce_match_stops_witness :
  let l := Z.of_nat (Nat.min (length (bytes "abc")) (length (bytes "abc"))) in
  (nth 0 (bytes "c") zero <> nth 0 (bytes "c") zero \/ 2 = l - 1) /\
  (nth (length (bytes "c") - 1) (bytes "c") zero
   <> nth (length (bytes "c") - 1) (bytes "c") zero \/
   Z.of_nat (length (bytes "abc")) - Z.of_nat (length (bytes "c")) = l - 1) /\
  Z.of_nat (length (bytes "abc")) - Z.of_nat (length (bytes "c"))
  = Z.of_nat (length (bytes "abc")) - Z.of_nat (length (bytes "c")).
Proof.
  apply (reduce_match_stops (bytes "abc") (bytes "abc") (bytes "c")
           (bytes "c") 2); try discriminate; reflexivity.
Defined.

(** ** levenshtein_distance and the table of its docstring *)

Lemma lev_table_0 (s1 s2 : list ascii) (r : nat) :
  lev_table s1 s2 r 0 = Z.of_nat r.
Proof. destruct r; reflexivity. Qed.

Lemma lev_table_S (s1 s2 : list ascii) (r c : nat) :
  lev_table s1 s2 (S r) (S c)
  = min3 (lev_table s1 s2 r c + sub_cost s1 s2 r c)
         (lev_table s1 s2 (S r) c + 1)
         (lev_table s1 s2 r (S c) + 1).
Proof. reflexivity. Qed.

Lemma lev_cells_table (s1 s2 : list ascii) (r : nat) (prev : list Z)
    (width : nat) :
  (forall c, (c < width)%nat -> nth c prev 0 = lev_table s1 s2 r c) ->
  forall (len k : nat) (cur : list Z),
  length cur = width -> (k + len < width)%nat ->
  (forall x, (x <= k)%nat -> nth x cur 0 = lev_table s1 s2 (S r) x) ->
  let cur' := fold_left (lev_cell (nth r s1 zero) s2 prev)
                (map Z.of_nat (seq k len)) cur in
  length cur' = width /\
  forall x, (x <= k + len)%nat -> nth x cur' 0 = lev_table s1 s2 (S r) x.
Proof.
  intros Hprev len. induction len as [|len IH]; intros k cur Hl Hk Hcur.
  - simpl. split; auto. intros x Hx. apply Hcur. lia.
  - cbn [seq map fold_left].
    specialize (IH (S k) (lev_cell (nth r s1 zero) s2 prev cur (Z.of_nat k))).
    replace (k + S len)%nat with (S k + len)%nat by lia.
    apply IH; clear IH.
    + unfold lev_cell, store. now apply store_nth_length_eq.
    + lia.
    + intros x Hx. unfold lev_cell.
      replace (Z.of_nat k + 1) with (Z.of_nat (S k)) by lia.
      rewrite !store_of_nat, !load_of_nat, char_at_of_nat.
      destruct (Nat.eq_dec x (S k)) as [->|Hne].
      * rewrite nth_store_nth_same by lia.
        rewrite lev_table_S, (Hprev k), (Hprev (S k)), (Hcur k) by lia.
        reflexivity.
      * rewrite nth_store_nth_other by congruence. apply Hcur. lia.
Qed.

Lemma lev_row_table (s1 s2 : list ascii) (m r : nat) (st : list Z * list Z) :
  lev_rows_at s1 s2 (S m) r st ->
  lev_rows_at s1 s2 (S m) (S r) (lev_row s1 s2 (Z.of_nat m) st (Z.of_nat r)).
Proof.
  destruct st as [cur prev]. intros (Hc & Hp & Hrow).
  unfold lev_row, lev_rows_at. rewrite range_of_nat, char_at_of_nat.
  change 0 with (Z.of_nat 0) at 1. rewrite store_of_nat.
  destruct (lev_cells_table s1 s2 r cur (S m) Hrow m 0%nat
              (store_nth prev 0 (Z.of_nat r + 1))) as (Hlen & Hnew).
  - now apply store_nth_length_eq.
  - lia.
  - intros x Hx. assert (x = 0%nat) as -> by lia.
    rewrite nth_store_nth_same by lia. rewrite lev_table_0. lia.
  - repeat split; auto. intros c Hc'. apply Hnew. lia.
Qed.

Lemma lev_rows_table (s1 s2 : list ascii) (m : nat) :
  forall (len r : nat) (st : list Z * list Z),
  lev_rows_at s1 s2 (S m) r st ->
  lev_rows_at s1 s2 (S m) (r + len)
    (fold_left (lev_row s1 s2 (Z.of_nat m)) (map Z.of_nat (seq r len)) st).
Proof.
  induction len as [|len IH]; intros r st H.
  - simpl. now rewrite Nat.add_0_r.
  - cbn [seq map fold_left].
    replace (r + S len)%nat with (S r + len)%nat by lia.
    apply IH. now apply lev_row_table.
Qed.

Lemma nth_range (n k : nat) :
  (k < n)%nat -> nth k (range (Z.of_nat n)) 0 = Z.of_nat k.
Proof.
  intros H. rewrite range_of_nat.
  change 0 with (Z.of_nat 0) at 1. rewrite map_nth, seq_nth; auto.
Qed.

Lemma lev_dp_table_aux (s1 s2 : list ascii) :
  lev_dp s1 s2 = lev_table s1 s2 (length s1) (length s2).
Proof.
  unfold lev_dp, PyString_Size, iota_row.
  rewrite (range_of_nat (length s1)).
  pose proof (lev_rows_table s1 s2 (length s2) (length s1) 0
                (range (Z.of_nat (length s2) + 1),
                 map (fun _ => 0) (range (Z.of_nat (length s2) + 1)))) as H.
  destruct (fold_left _ _ _) as [cur prev].
  rewrite load_of_nat.
  destruct H as (_ & _ & Hrow).
  - replace (Z.of_nat (length s2) + 1) with (Z.of_nat (S (length s2))) by lia.
    unfold lev_rows_at. rewrite length_map, range_length.
    repeat split; auto. intros c Hc. now rewrite nth_range.
  - apply Hrow. lia.
Qed.


(** X8. The rolling two-row loop of levenshtein_distance computes the entry
    cost[n,m] of the recurrence in its docstring, n and m being the lengths
    of the two sequences it runs on. *)
Theorem lev_dp_table (s1 s2 : list ascii) :
  lev_dp s1 s2 = lev_table s1 s2 (length s1) (length s2).
Proof. apply lev_dp_table_aux. Qed.

Lemma max2_max (a b : Z) : max2 a b = Z.max a b.
Proof. unfold max2. destruct (Z.geb_spec a b); lia. Qed.

Lemma min3_min (a b c : Z) : min3 a b c = Z.min (Z.min a b) c.
Proof. unfold min3. now rewrite !min2_min. Qed.

Lemma sub_cost_range (s1 s2 : list ascii) (r c : nat) :
  0 <= sub_cost s1 s2 r c <= 1.
Proof. unfold sub_cost. destruct (Ascii.eqb _ _); lia. Qed.

Lemma sub_cost_sym (s1 s2 : list ascii) (r c : nat) :
  sub_cost s1 s2 r c = sub_cost s2 s1 c r.
Proof. unfold sub_cost. now rewrite ascii_eqb_sym. Qed.

(* a double induction over the table *)
Lemma lev_table_ind (s1 s2 : list ascii) (P : nat -> nat -> Prop) :
  (forall c, P 0%nat c) ->
  (forall r, P r 0%nat) ->
  (forall r c, P r c -> P (S r) c -> P r (S c) -> P (S r) (S c)) ->
  forall r c, P r c.
Proof.
  intros H0 Hc0 HS. induction r as [|r IHr]; [exact H0|].
  induction c as [|c IHc]; [apply Hc0|]. apply HS; auto.
Qed.

Lemma lev_table_bounds (s1 s2 : list ascii) (r c : nat) :
  Z.abs (Z.of_nat r - Z.of_nat c) <= lev_table s1 s2 r c
  <= Z.max (Z.of_nat r) (Z.of_nat c).
Proof.
  revert r c. apply (lev_table_ind s1 s2).
  - intros c. simpl. lia.
  - intros r. rewrite lev_table_0. lia.
  - intros r c H1 H2 H3. rewrite lev_table_S, min3_min.
    pose proof (sub_cost_range s1 s2 r c). lia.
Qed.

Lemma lev_table_sym (s1 s2 : list ascii) (r c : nat) :
  lev_table s1 s2 r c = lev_table s2 s1 c r.
Proof.
  revert r c. apply (lev_table_ind s1 s2).
  - intros c. rewrite lev_table_0. reflexivity.
  - intros r. rewrite lev_table_0. reflexivity.
  - intros r c H1 H2 H3.
    rewrite !lev_table_S, !min3_min, H1, H2, H3, sub_cost_sym. lia.
Qed.

(* the table looks at the first r symbols of s1 and the first c of s2 *)
Lemma lev_table_ext (s1 s2 t1 t2 : list ascii) (r c : nat) :
  (forall x, (x < r)%nat -> nth x s1 zero = nth x t1 zero) ->
  (forall y, (y < c)%nat -> nth y s2 zero = nth y t2 zero) ->
  lev_table s1 s2 r c = lev_table t1 t2 r c.
Proof.
  revert r c. apply (lev_table_ind s1 s2
    (fun r c =>
       (forall x, (x < r)%nat -> nth x s1 zero = nth x t1 zero) ->
       (forall y, (y < c)%nat -> nth y s2 zero = nth y t2 zero) ->
       lev_table s1 s2 r c = lev_table t1 t2 r c)).
  - intros c _ _. reflexivity.
  - intros r _ _. now rewrite !lev_table_0.
  - intros r c H1 H2 H3 Hr Hc. rewrite !lev_table_S.
    rewrite H1, H2, H3 by (intros; auto with arith).
    unfold sub_cost. rewrite (Hr r), (Hc c) by lia. reflexivity.
Qed.

(* neighbouring entries differ by at most one *)
Lemma lev_table_step_down (s1 s2 : list ascii) (r c : nat) :
  lev_table s1 s2 (S r) c <= lev_table s1 s2 r c + 1 /\
  lev_table s1 s2 r (S c) <= lev_table s1 s2 r c + 1.
Proof.
  split.
  - destruct c as [|c].
    + rewrite !lev_table_0. lia.
    + rewrite lev_table_S, min3_min. lia.
  - destruct r as [|r].
    + simpl. lia.
    + rewrite lev_table_S, min3_min. lia.
Qed.

Lemma lev_table_step_up (s1 s2 : list ascii) (r c : nat) :
  lev_table s1 s2 r c <= lev_table s1 s2 (S r) c + 1 /\
  lev_table s1 s2 r c <= lev_table s1 s2 r (S c) + 1.
Proof.
  revert r c. apply (lev_table_ind s1 s2).
  - intros c. split.
    + induction c as [|c IH].
      * simpl. lia.
      * rewrite lev_table_S, min3_min.
        pose proof (sub_cost_range s1 s2 0 c).
        change (lev_table s1 s2 0 (S c)) with (Z.of_nat (S c)) in *.
        change (lev_table s1 s2 0 c) with (Z.of_nat c) in *. lia.
    + simpl. lia.
  - intros r. split.
    + rewrite !lev_table_0. lia.
    + induction r as [|r IH].
      * simpl. lia.
      * rewrite lev_table_S, min3_min, !lev_table_0 in *.
        pose proof (sub_cost_range s1 s2 r 0). lia.
  - intros r c H1 H2 H3.
    pose proof (lev_table_step_down s1 s2 r c) as D1.
    pose proof (lev_table_step_down s1 s2 (S r) c) as D2.
    pose proof (lev_table_step_down s1 s2 r (S c)) as D3.
    pose proof (sub_cost_range s1 s2 r c).
    pose proof (sub_cost_range s1 s2 (S r) c).
    pose proof (sub_cost_range s1 s2 r (S c)).
    rewrite (lev_table_S s1 s2 (S r) c), (lev_table_S s1 s2 r (S c)),
      !min3_min.
    rewrite (lev_table_S s1 s2 r c), min3_min in *.
    lia.
Qed.

(* a common first symbol does not count *)
Lemma lev_table_cons (x : ascii) (a b : list ascii) (r c : nat) :
  lev_table (x :: a) (x :: b) (S r) (S c) = lev_table a b r c.
Proof.
  revert r c. apply (lev_table_ind a b).
  - induction c as [|c IH].
    + rewrite lev_table_S, min3_min. unfold sub_cost. simpl.
      rewrite Ascii.eqb_refl. lia.
    + rewrite lev_table_S, min3_min, IH.
      pose proof (sub_cost_range (x :: a) (x :: b) 0 (S c)).
      change (lev_table (x :: a) (x :: b) 0 (S c)) with (Z.of_nat (S c)).
      change (lev_table (x :: a) (x :: b) 0 (S (S c)))
        with (Z.of_nat (S (S c))).
      change (lev_table a b 0 c) with (Z.of_nat c).
      change (lev_table a b 0 (S c)) with (Z.of_nat (S c)). lia.
  - induction r as [|r IH].
    + rewrite lev_table_S, min3_min. unfold sub_cost. simpl.
      rewrite Ascii.eqb_refl. lia.
    + rewrite lev_table_S, min3_min, IH, !lev_table_0.
      pose proof (sub_cost_range (x :: a) (x :: b) (S r) 0). lia.
  - intros r c H1 H2 H3.
    rewrite (lev_table_S (x :: a) (x :: b) (S r) (S c)), H1, H2, H3.
    rewrite (lev_table_S a b r c). reflexivity.
Qed.

Lemma lev_table_prefix (p a b : list ascii) (r c : nat) :
  lev_table (p ++ a) (p ++ b) (length p + r) (length p + c)
  = lev_table a b r c.
Proof.
  induction p as [|x p IH]; [reflexivity|].
  cbn [app length Nat.add]. now rewrite lev_table_cons.
Qed.

(* a common last symbol does not count *)
Lemma lev_table_snoc (x : ascii) (a b : list ascii) :
  lev_table (a ++ [x]) (b ++ [x]) (S (length a)) (S (length b))
  = lev_table a b (length a) (length b).
Proof.
  rewrite lev_table_S, min3_min.
  pose proof (lev_table_step_up (a ++ [x]) (b ++ [x]) (length a) (length b)).
  assert (sub_cost (a ++ [x]) (b ++ [x]) (length a) (length b) = 0) as ->.
  { unfold sub_cost. rewrite !nth_middle, Ascii.eqb_refl. reflexivity. }
  rewrite <- (lev_table_ext (a ++ [x]) (b ++ [x]) a b).
  - lia.
  - intros y Hy. now rewrite app_nth1.
  - intros y Hy. now rewrite app_nth1.
Qed.

Lemma lev_table_suffix (s : list ascii) :
  forall a b : list ascii,
  lev_table (a ++ s) (b ++ s) (length a + length s) (length b + length s)
  = lev_table a b (length a) (length b).
Proof.
  induction s as [|x s IH]; intros a b.
  - rewrite !app_nil_r. simpl. now rewrite !Nat.add_0_r.
  - change (x :: s) with ([x] ++ s). rewrite !app_assoc.
    replace (length a + length ([x] ++ s))%nat
      with (length (a ++ [x]) + length s)%nat
      by (rewrite length_app; simpl; lia).
    replace (length b + length ([x] ++ s))%nat
      with (length (b ++ [x]) + length s)%nat
      by (rewrite length_app; simpl; lia).
    rewrite IH, !length_app. simpl length.
    rewrite !Nat.add_1_r. apply lev_table_snoc.
Qed.

(* the code below the call of reduce_match, fast path and swap included *)
Lemma levenshtein_core_table (s1 s2 : list ascii) :
  levenshtein_core s1 s2 = lev_table s1 s2 (length s1) (length s2).
Proof.
  assert (forall a b : list ascii,
            match b with [] => PyString_Size a | _ => lev_dp a b end
            = lev_table a b (length a) (length b)) as H.
  { intros a [|y b].
    - simpl length. now rewrite lev_table_0.
    - apply lev_dp_table_aux. }
  unfold levenshtein_core.
  destruct (PyString_Size s1 <? PyString_Size s2).
  - rewrite H. apply lev_table_sym.
  - apply H.
Qed.

Lemma levenshtein_distance_table_aux (A B : list ascii) :
  A <> [] -> B <> [] ->
  levenshtein_distance A B = lev_table A B (length A) (length B).
Proof.
  intros HA HB.
  destruct (reduce_match_nonempty_aux A B HA HB)
    as (p & a & b & s & E & EA & EB & _ & _).
  unfold levenshtein_distance. rewrite E, levenshtein_core_table.
  clear E HA HB. subst A B.
  rewrite !length_app, lev_table_prefix, lev_table_suffix. reflexivity.
Qed.

(** X9. On two non-empty sequences levenshtein_distance returns the entry
    cost[n,m] of the recurrence in its docstring for the sequences as they
    were passed: the reduction and the swap do not change it. *)
Theorem levenshtein_distance_table (A B : list ascii) :
  A <> [] -> B <> [] ->
  levenshtein_distance A B = lev_table A B (length A) (length B).
Proof. apply levenshtein_distance_table_aux. Qed.

Lemma levenshtein_distance_table_witness :
  levenshtein_distance (bytes "ac") (bytes "abc")
  = lev_table (bytes "ac") (bytes "abc") 2 3.
Proof.
  apply (levenshtein_distance_table (bytes "ac") (bytes "abc"));
    discriminate.
Defined.

(** X10. levenshtein_distance does not depend on the order of two non-empty
    sequences. *)
Theorem levenshtein_distance_sym (A B : list ascii) :
  A <> [] -> B <> [] ->
  levenshtein_distance A B = levenshtein_distance B A.
Proof.
  intros HA HB.
  rewrite (levenshtein_distance_table_aux A B), (levenshtein_distance_table_aux B A);
    auto.
  apply lev_table_sym.
Qed.

Lemma levenshtein_distance_sym_witness :
  levenshtein_distance (bytes "ac") (bytes "abc")
  = levenshtein_distance (bytes "abc") (bytes "ac").
Proof.
  apply (levenshtein_distance_sym (bytes "ac") (bytes "abc")); discriminate.
Defined.

Lemma levenshtein_distance_empty_aux (S : list ascii) :
  levenshtein_distance [] S = PyString_Size S /\
  levenshtein_distance S [] = Z.min 1 (PyString_Size S).
Proof.
  unfold levenshtein_distance.
  destruct (reduce_match_empty_aux S) as [-> ->].
  rewrite !levenshtein_core_table. split.
  - simpl. reflexivity.
  - rewrite lev_table_0, length_firstn. unfold PyString_Size. lia.
Qed.


(** X11. With an empty first sequence levenshtein_distance returns the
    length of the second one; with an empty second sequence it returns 1 for
    every non-empty first sequence (and 0 for the empty one), because
    reduce_match hands it only the first symbol. *)
Theorem levenshtein_distance_empty (S : list ascii) :
  levenshtein_distance [] S = PyString_Size S /\
  levenshtein_distance S [] = Z.min 1 (PyString_Size S).
Proof. apply levenshtein_distance_empty_aux. Qed.

Lemma lev_table_zero (s1 s2 : list ascii) (r c : nat) :
  lev_table s1 s2 r c = 0 ->
  r = c /\ forall x, (x < r)%nat -> nth x s1 zero = nth x s2 zero.
Proof.
  revert r c. apply (lev_table_ind s1 s2
    (fun r c => lev_table s1 s2 r c = 0 ->
       r = c /\ forall x, (x < r)%nat -> nth x s1 zero = nth x s2 zero)).
  - intros c H. simpl in H. split; [lia|]. intros x Hx. lia.
  - intros r H. rewrite lev_table_0 in H. split; [lia|]. intros x Hx. lia.
  - intros r c H1 _ _ H. rewrite lev_table_S, min3_min in H.
    pose proof (lev_table_bounds s1 s2 r c).
    pose proof (lev_table_bounds s1 s2 (S r) c).
    pose proof (lev_table_bounds s1 s2 r (S c)).
    pose proof (sub_cost_range s1 s2 r c).
    assert (lev_table s1 s2 r c = 0) as Hz by lia.
    assert (sub_cost s1 s2 r c = 0) as Hc by lia.
    destruct (H1 Hz) as [-> Hbelow]. split; auto.
    intros x Hx. destruct (Nat.eq_dec x c) as [->|Hne].
    + unfold sub_cost in Hc.
      destruct (Ascii.eqb_spec (nth c s1 zero) (nth c s2 zero)); auto.
      discriminate.
    + apply Hbelow. lia.
Qed.

Lemma lev_table_diag (s : list ascii) (r : nat) : lev_table s s r r = 0.
Proof.
  induction r as [|r IH]; [reflexivity|].
  rewrite lev_table_S, min3_min, IH.
  pose proof (lev_table_bounds s s (S r) r).
  pose proof (lev_table_bounds s s r (S r)).
  unfold sub_cost. rewrite Ascii.eqb_refl. lia.
Qed.

(** X12. levenshtein_distance returns 0 exactly on two equal sequences. *)
Theorem levenshtein_distance_zero (A B : list ascii) :
  levenshtein_distance A B = 0 <-> A = B.
Proof.
  destruct A as [|x A].
  - rewrite (proj1 (levenshtein_distance_empty_aux B)). unfold PyString_Size.
    destruct B; simpl; split; intros H; try reflexivity; try discriminate;
      lia.
  - destruct B as [|y B].
    + rewrite (proj2 (levenshtein_distance_empty_aux (x :: A))).
      unfold PyString_Size. simpl length. split; intros H;
        [lia | discriminate].
    + rewrite levenshtein_distance_table_aux by discriminate. split.
      * intros H. apply lev_table_zero in H as [Hlen Hnth].
        apply (nth_ext _ _ zero zero Hlen). exact Hnth.
      * intros <-. apply lev_table_diag.
Qed.

Lemma levenshtein_distance_zero_witness :
  levenshtein_distance (bytes "abc") (bytes "abc") = 0.
Proof.
  apply (proj2 (levenshtein_distance_zero (bytes "abc") (bytes "abc"))).
  reflexivity.
Defined.

(** X13. levenshtein_distance lies between 0 and the length of the longer
    sequence; on two non-empty sequences it is at least the difference of
    their lengths. *)
Theorem levenshtein_distance_bounds (A B : list ascii) :
  0 <= levenshtein_distance A B
    <= Z.max (PyString_Size A) (PyString_Size B) /\
  (A <> [] -> B <> [] ->
   Z.abs (PyString_Size A - PyString_Size B) <= levenshtein_distance A B).
Proof.
  unfold PyString_Size. split.
  - destruct A as [|x A]; [|destruct B as [|y B]].
    + rewrite (proj1 (levenshtein_distance_empty_aux B)).
      unfold PyString_Size. simpl length. lia.
    + rewrite (proj2 (levenshtein_distance_empty_aux (x :: A))).
      unfold PyString_Size. simpl length. lia.
    + rewrite levenshtein_distance_table_aux by discriminate.
      pose proof (lev_table_bounds (x :: A) (y :: B) (length (x :: A))
                    (length (y :: B))). lia.
  - intros HA HB. rewrite levenshtein_distance_table_aux by auto.
    apply lev_table_bounds.
Qed.

Lemma levenshtein_distance_bounds_witness :
  0 <= levenshtein_distance (bytes "ac") (bytes "abc")
    <= Z.max (PyString_Size (bytes "ac")) (PyString_Size (bytes "abc")) /\
  Z.abs (PyString_Size (bytes "ac") - PyString_Size (bytes "abc"))
  <= levenshtein_distance (bytes "ac") (bytes "abc").
Proof.
  split.
  - apply (levenshtein_distance_bounds (bytes "ac") (bytes "abc")).
  - apply (levenshtein_distance_bounds (bytes "ac") (bytes "abc"));
      discriminate.
Defined.

Lemma lev_table_diag_count (s1 s2 : list ascii) (r : nat) :
  lev_table s1 s2 r r
  <= Z.of_nat (length (filter
        (fun i => negb (Ascii.eqb (nth i s1 zero) (nth i s2 zero)))
        (seq 0 r))).
Proof.
  induction r as [|r IH]; [simpl; lia|].
  rewrite seq_S, filter_app, length_app, lev_table_S, min3_min.
  unfold sub_cost. simpl.
  destruct (Ascii.eqb (nth r s1 zero) (nth r s2 zero)); simpl; lia.
Qed.

(** X14. Where hamming_distance returns a count, levenshtein_distance
    returns at most that count. *)
Theorem levenshtein_le_hamming (A B : list ascii) (d : Z) :
  hamming_distance A B = Ok d -> levenshtein_distance A B <= d.
Proof.
  intros H. apply hamming_Ok_length in H as (Hlen & ->).
  destruct A as [|x A].
  - destruct B; [|discriminate]. vm_compute. discriminate.
  - destruct B as [|y B]; [discriminate|].
    rewrite levenshtein_distance_table_aux by discriminate.
    rewrite <- Hlen. apply lev_table_diag_count.
Qed.

Lemma levenshtein_le_hamming_witness :
  levenshtein_distance (bytes "abb") (bytes "abc") <= 1.
Proof.
  apply (levenshtein_le_hamming (bytes "abb") (bytes "abc") 1). reflexivity.
Defined.

(** ** More on the run-length encoder *)

Lemma _op_str_known (c : ascii) :
  known_op c = true -> _op_str c = Ok (String c EmptyString).
Proof. unfold _op_str. now intros ->. Qed.

Lemma _op_str_unknown (c : ascii) :
  known_op c = false -> _op_str c = ValueError "Unknown op"%string.
Proof. unfold _op_str. now intros ->. Qed.

Lemma rle_step_known (st : ascii * Z * list CigarOp) (c : ascii) :
  pending_ok st -> known_op c = true ->
  exists st', rle_step st c = Ok st' /\ pending_ok st'.
Proof.
  destruct st as [[o n] cigar]. unfold pending_ok, rle_step. intros Hp Hc.
  destruct (Ascii.eqb_spec c o) as [E|E].
  - subst o. eexists. split; [reflexivity|]. right. split; [lia | exact Hc].
  - destruct Hp as [->|[Hn Ho]].
    + simpl. eexists. split; [reflexivity|]. right. split; [lia | exact Hc].
    + destruct (Z.eqb_spec n 0) as [?|_]; [lia|]. simpl.
      rewrite (_op_str_known o Ho). simpl.
      eexists. split; [reflexivity|]. right. split; [lia | exact Hc].
Qed.

Lemma rle_fold_known (syms : list ascii) :
  forall st, pending_ok st -> forallb known_op syms = true ->
  exists st', foldM rle_step syms st = Ok st' /\ pending_ok st'.
Proof.
  induction syms as [|c syms IH]; intros st Hp Hall; simpl.
  - eauto.
  - simpl in Hall. apply andb_prop in Hall as [Hc Hall].
    destruct (rle_step_known st c Hp Hc) as (st1 & E1 & Hp1).
    rewrite E1. simpl. now apply IH.
Qed.

Lemma rle_flush_ok (st : ascii * Z * list CigarOp) :
  pending_ok st -> exists script, rle_flush st = Ok script.
Proof.
  destruct st as [[o n] cigar]. unfold pending_ok, rle_flush.
  intros [->|[Hn Ho]].
  - simpl. eauto.
  - destruct (Z.eqb_spec n 0) as [?|_]; [lia|]. simpl.
    rewrite (_op_str_known o Ho). simpl. eauto.
Qed.

(* once the run being counted has an unknown symbol the call raises *)
Lemma rle_fold_doomed (syms : list ascii) :
  forall o n cigar, 0 < n -> known_op o = false ->
  (st <- foldM rle_step syms (o, n, cigar) ;; rle_flush st)
  = ValueError "Unknown op"%string.
Proof.
  induction syms as [|c syms IH]; intros o n cigar Hn Ho.
  - simpl. destruct (Z.eqb_spec n 0) as [?|_]; [lia|]. simpl.
    now rewrite (_op_str_unknown o Ho).
  - cbn [foldM]. unfold rle_step at 1.
    destruct (Ascii.eqb_spec c o) as [E|E].
    + simpl. apply IH; [lia | exact Ho].
    + destruct (Z.eqb_spec n 0) as [?|_]; [lia|]. simpl.
      now rewrite (_op_str_unknown o Ho).
Qed.

Lemma rle_fold_unknown (syms : list ascii) :
  forall st, pending_ok st -> forallb known_op syms = false ->
  (st' <- foldM rle_step syms st ;; rle_flush st')
  = ValueError "Unknown op"%string.
Proof.
  induction syms as [|c syms IH]; intros st Hp Hall; [discriminate|].
  simpl in Hall. destruct (known_op c) eqn:Hc.
  - destruct (rle_step_known st c Hp Hc) as (st1 & E1 & Hp1).
    cbn [foldM]. rewrite E1. simpl. apply IH; auto.
  - destruct st as [[o n] cigar]. cbn [foldM]. unfold rle_step at 1.
    destruct (Ascii.eqb_spec c o) as [E|E].
    + subst o. simpl. apply rle_fold_doomed; [|exact Hc].
      destruct Hp as [->|[Hn Ho]]; [lia | congruence].
    + destruct Hp as [->|[Hn Ho]].
      * simpl. apply rle_fold_doomed; [lia | exact Hc].
      * destruct (Z.eqb_spec n 0) as [?|_]; [lia|]. simpl.
        rewrite (_op_str_known o Ho). simpl.
        apply rle_fold_doomed; [lia | exact Hc].
Qed.

Lemma encode_runs_known (syms : list ascii) :
  forallb known_op syms = true ->
  exists script, encode_runs syms = Ok script.
Proof.
  intros Hall. unfold encode_runs.
  destruct (rle_fold_known syms (zero, 0, []) (or_introl eq_refl) Hall)
    as (st & E & Hp).
  rewrite E. simpl. now apply rle_flush_ok.
Qed.

(** X15. The encoder of _roll_cigar returns a script when every symbol it
    reads is one of S N M = X I D T, and that script expands to the symbols
    read; when some symbol is not one of these it raises ValueError. *)
Theorem encode_runs_outcome (syms : list ascii) :
  (forallb known_op syms = true ->
   exists script, encode_runs syms = Ok script /\ expand script = syms) /\
  (forallb known_op syms = false ->
   exists msg, encode_runs syms = ValueError msg).
Proof.
  split; intros H.
  - destruct (encode_runs_known syms H) as [script E].
    exists script. split; auto. now apply encode_runs_sound in E.
  - eexists. unfold encode_runs. apply rle_fold_unknown; auto. now left.
Qed.

Lemma encode_runs_outcome_witness :
  (exists script,
     encode_runs (bytes "SS==X") = Ok script /\
     expand script = bytes "SS==X") /\
  (exists msg, encode_runs (bytes "S?=") = ValueError msg).
Proof.
  split.
  - apply (proj1 (encode_runs_outcome (bytes "SS==X"))). reflexivity.
  - apply (proj2 (encode_runs_outcome (bytes "S?="))). reflexivity.
Defined.

Lemma foldM_app {S X} (f : S -> X -> outcome S) (l1 l2 : list X) (s : S) :
  foldM f (l1 ++ l2) s = (s' <- foldM f l1 s ;; foldM f l2 s').
Proof.
  revert s. induction l1 as [|x l1 IH]; intros s; simpl; auto.
  destruct (f s x); simpl; auto.
Qed.

Lemma rle_run_same (c : ascii) (k : nat) :
  forall n cigar,
  foldM rle_step (repeat c k) (c, n, cigar) = Ok (c, n + Z.of_nat k, cigar).
Proof.
  induction k as [|k IH]; intros n cigar.
  - simpl. now rewrite Z.add_0_r.
  - cbn [repeat foldM]. unfold rle_step at 1. rewrite Ascii.eqb_refl. simpl.
    rewrite IH. do 3 f_equal. lia.
Qed.

Lemma rle_run_new (c o : ascii) (k : Z) (n : Z) (cigar : list CigarOp) :
  0 < k -> pending_ok (o, n, cigar) -> (n = 0 \/ o <> c) ->
  foldM rle_step (repeat c (Z.to_nat k)) (o, n, cigar)
  = Ok (c, k, so_far (o, n, cigar)).
Proof.
  intros Hk Hp Hne.
  destruct (Z.to_nat k) as [|k'] eqn:Ek; [lia|].
  cbn [repeat foldM]. unfold rle_step at 1.
  assert (1 + Z.of_nat k' = k) as Ek' by lia.
  destruct (Ascii.eqb_spec c o) as [E|E].
  - subst o. destruct Hne as [->|Hne]; [|congruence].
    cbn [bind]. rewrite rle_run_same. unfold so_far, pending.
    cbn [Z.eqb]. rewrite app_nil_r.
    replace (0 + 1 + Z.of_nat k') with k by lia. reflexivity.
  - unfold so_far, pending.
    destruct Hp as [->|[Hn Ho]].
    + cbn [Z.eqb negb bind]. rewrite rle_run_same, app_nil_r.
      now rewrite Ek'.
    + destruct (Z.eqb_spec n 0) as [?|_]; [lia|]. cbn [negb bind].
      rewrite (_op_str_known o Ho). cbn [bind].
      rewrite rle_run_same. now rewrite Ek'.
Qed.

Lemma rle_fold_script (script : list CigarOp) :
  forall o n cigar,
  Forall entry_ok script -> maximal_run script ->
  pending_ok (o, n, cigar) ->
  (n = 0 \/ match script with
            | [] => True
            | c :: _ => String o EmptyString <> op c
            end) ->
  (st <- foldM rle_step (expand script) (o, n, cigar) ;; rle_flush st)
  = Ok (so_far (o, n, cigar) ++ script).
Proof.
  induction script as [|c script IH]; intros o n cigar Hok Hmax Hp Hhead.
  - unfold expand. cbn [flat_map foldM bind]. rewrite app_nil_r.
    destruct (rle_flush_ok _ Hp) as [s E]. rewrite E.
    now apply rle_flush_so_far in E as ->.
  - inversion Hok as [|? ? (a & Ea & Ka) Hok']; subst.
    destruct Hmax as [Hpos Hrep].
    inversion Hpos as [|? ? Hc Hpos']; subst.
    change (expand (c :: script))
      with (repeat (op_char c) (Z.to_nat (count c)) ++ expand script).
    rewrite foldM_app.
    assert (op_char c = a) as Ha by (unfold op_char; now rewrite Ea).
    rewrite Ha, rle_run_new; auto.
    + simpl bind. rewrite IH; auto.
      * unfold so_far at 1, pending at 1.
        destruct (Z.eqb_spec (count c) 0) as [?|_]; [lia|].
        rewrite <- app_assoc. f_equal. simpl. f_equal.
        destruct c as [oc cc]. simpl in *. now subst oc.
      * split; auto. simpl in Hrep.
        destruct script; simpl in *; tauto.
      * right. split; auto.
      * right. destruct script as [|c2 script]; auto.
        simpl in Hrep. rewrite <- Ea. tauto.
    + destruct Hhead as [?|Hh]; [now left | right].
      rewrite Ea in Hh. congruence.
Qed.

(** X16. The encoder inverts the expansion: on the expansion of a script
    with known one-symbol operations, positive counts and no two equal
    neighbours, it returns that script. *)
Theorem encode_runs_expand (script : list CigarOp) :
  Forall entry_ok script -> maximal_run script ->
  encode_runs (expand script) = Ok script.
Proof.
  intros Hok Hmax. unfold encode_runs.
  rewrite (rle_fold_script script zero 0 []); auto.
  now left.
Qed.

Lemma encode_runs_expand_witness :
  encode_runs (expand [mkCigarOp "S" 2; mkCigarOp "=" 3; mkCigarOp "S" 1])
  = Ok [mkCigarOp "S" 2; mkCigarOp "=" 3; mkCigarOp "S" 1].
Proof.
  apply (encode_runs_expand
           [mkCigarOp "S" 2; mkCigarOp "=" 3; mkCigarOp "S" 1]).
  - repeat constructor; eexists; split; reflexivity.
  - split.
    + repeat constructor.
    + simpl. repeat split; discriminate.
Defined.

(** ** The loops of _roll_cigar: what they write *)

Lemma load_store_same {A} (d : A) (a : list A) (i : Z) (v : A) :
  0 <= i < Z.of_nat (length a) -> load d (store a i v) i = v.
Proof.
  intros H. unfold load, store. apply nth_store_nth_same. lia.
Qed.

Lemma load_store_other {A} (d : A) (a : list A) (i k : Z) (v : A) :
  0 <= i -> 0 <= k -> i <> k -> load d (store a i v) k = load d a k.
Proof.
  intros Hi Hk H. unfold load, store. apply nth_store_nth_other. lia.
Qed.

Lemma store_length {A} (a : list A) (i : Z) (v : A) :
  length (store a i v) = length a.
Proof. apply store_nth_length. Qed.

Lemma range_succ (k : Z) : 0 <= k -> range (k + 1) = range k ++ [k].
Proof.
  intros H. unfold range.
  replace (Z.to_nat (k + 1)) with (S (Z.to_nat k)) by lia.
  rewrite seq_S, map_app. simpl. now rewrite Z2Nat.id.
Qed.

Lemma in_range (k x : Z) : In x (range k) -> 0 <= x < k.
Proof.
  unfold range. rewrite in_map_iff. intros (y & <- & Hy).
  apply in_seq in Hy. lia.
Qed.

(* igar[k] = c; k += 1 puts c in front of what was written *)
Lemma emit_emitted (c : ascii) (s s' : roll) :
  0 <= r_k s -> emit c s = Ok s' ->
  emitted s' = c :: emitted s /\
  r_k s < Z.of_nat (length (r_igar s)) /\
  length (r_igar s') = length (r_igar s).
Proof.
  intros Hk H. unfold emit, store_chk in H.
  destruct (Z.leb_spec 0 (r_k s)); [|lia].
  destruct (Z.ltb_spec (r_k s) (Z.of_nat (length (r_igar s))));
    simpl in H; [|discriminate].
  injection H as <-. unfold emitted. simpl.
  rewrite store_length. split; [|split]; auto.
  rewrite range_succ, rev_app_distr by lia. simpl. f_equal.
  - apply load_store_same. lia.
  - apply map_ext_in. intros x Hx. apply in_rev, in_range in Hx.
    apply load_store_other; lia.
Qed.

Lemma while_inv {S} (Inv : S -> Prop) (cond : S -> bool)
    (body : S -> outcome S) :
  (forall s s', Inv s -> cond s = true -> body s = Ok s' -> Inv s') ->
  forall fuel s s',
  Inv s -> while_ fuel cond body s = Ok s' -> Inv s' /\ cond s' = false.
Proof.
  intros Hstep. induction fuel as [|fuel IH]; intros s s' Hs H; simpl in H;
    destruct (cond s) eqn:C; try discriminate.
  - injection H as <-. split; assumption.
  - apply bind_Ok in H as (s1 & H1 & H2).
    apply (IH s1); [eapply Hstep; eauto | exact H2].
  - injection H as <-. split; assumption.
Qed.

(* one symbol written, then n, m, i and j moved *)
Lemma roll_inv_emit (cap : nat) (P : ascii -> Prop) (n0 m0 i0 j0 : Z)
    (c : ascii) (s s1 : roll) (n' m' i' j' : Z) :
  roll_inv cap P n0 m0 i0 j0 s -> P c -> emit c s = Ok s1 ->
  covers1 c = (r_n s - n') + (r_i s - i') ->
  covers2 c = (r_m s - m') + (r_j s - j') ->
  roll_inv cap P n0 m0 i0 j0 (mkRoll n' m' i' j' (r_k s1) (r_igar s1)).
Proof.
  intros (Hlen & Hk & H1 & H2 & Hl & HP) Hc He E1 E2.
  destruct (emit_emitted c s s1 (proj1 Hk) He) as (Eem & Hlt & Hlen').
  destruct (emit_Ok c s s1 He) as (En & Em & Ei & Ej & Ek).
  unfold roll_inv. change (emitted (mkRoll _ _ _ _ (r_k s1) (r_igar s1)))
    with (emitted s1).
  cbn [r_n r_m r_i r_j r_k r_igar]. rewrite Eem. cbn [total fold_right length].
  fold (total covers1 (emitted s)). fold (total covers2 (emitted s)).
  repeat split; try lia.
  constructor; auto.
Qed.

Lemma load_chk_In {A} (a : list A) (i : Z) (v : A) :
  load_chk a i = Ok v -> In v a.
Proof.
  unfold load_chk. destruct ((0 <=? i) && (i <? Z.of_nat (length a)));
    [|discriminate].
  destruct (nth_error a (Z.to_nat i)) eqn:E; [|discriminate].
  intros H. injection H as <-. eapply nth_error_In; eauto.
Qed.

Ltac emit_step H :=
  let s1 := fresh "s1" in
  let H1 := fresh "H1" in
  apply bind_Ok in H as (s1 & H1 & H); injection H as <-;
  destruct (emit_Ok _ _ _ H1) as (? & ? & ? & ? & ?).

Ltac covers_eval :=
  repeat match goal with
         | |- context [covers1 ?c] =>
           let v := eval vm_compute in (covers1 c) in
           change (covers1 c) with v
         | |- context [covers2 ?c] =>
           let v := eval vm_compute in (covers2 c) in
           change (covers2 c) with v
         end.

Lemma walk_step_cases (edits : list ascii) (s s' : roll) :
  walk_step edits s = Ok s' ->
  exists o s1,
    In o edits /\ emit o s = Ok s1 /\
    r_n s' = r_n s /\ r_m s' = r_m s /\
    r_k s' = r_k s1 /\ r_igar s' = r_igar s1 /\
    r_i s' = r_i s - covers1 o /\ r_j s' = r_j s - covers2 o.
Proof.
  unfold walk_step. intros H.
  apply bind_Ok in H as (o & Ho & H). apply load_chk_In in Ho.
  apply bind_Ok in H as (s1 & H1 & H).
  exists o, s1. split; [exact Ho|]. split; [exact H1|].
  destruct (emit_Ok _ _ _ H1) as (En & Em & Ei & Ej & Ek).
  destruct s1 as [n m i j k igar]. simpl in *.
  destruct (Ascii.eqb_spec o "M") as [->|HM]; simpl in H.
  { injection H as <-. simpl. covers_eval. repeat split; lia. }
  destruct (Ascii.eqb_spec o "=") as [->|HE]; simpl in H.
  { injection H as <-. simpl. covers_eval. repeat split; lia. }
  destruct (Ascii.eqb_spec o "X") as [->|HX]; simpl in H.
  { injection H as <-. simpl. covers_eval. repeat split; lia. }
  destruct (Ascii.eqb_spec o "D") as [->|HD].
  { injection H as <-. simpl. covers_eval. repeat split; lia. }
  destruct (Ascii.eqb_spec o "I") as [->|HI].
  { injection H as <-. simpl. covers_eval. repeat split; lia. }
  destruct (Ascii.eqb_spec o "T") as [->|HT]; [|discriminate].
  injection H as <-. simpl. covers_eval. repeat split; lia.
Qed.

(* the invariant holds after the five loops *)
Lemma roll_loops_inv (cap : nat) (P : ascii -> Prop) (edits : list ascii)
    (n m i j : Z) (s : roll) :
  P "S"%char -> P "N"%char -> (forall x, In x edits -> P x) ->
  roll_loops (repeat zero cap) n m i j edits = Ok s ->
  roll_inv cap P n m i j s.
Proof.
  intros PS PN Pedits H. unfold roll_loops, loop in H.
  apply bind_Ok in H as (s1 & L1 & H).
  apply bind_Ok in H as (s2 & L2 & H).
  apply bind_Ok in H as (s3 & L3 & H).
  apply bind_Ok in H as (s4 & L4 & L5).
  assert (roll_inv cap P n m i j (mkRoll n m i j 0 (repeat zero cap))) as I0.
  { unfold roll_inv, emitted. simpl. rewrite repeat_length.
    repeat split; try lia. constructor. }
  apply (while_inv (roll_inv cap P n m i j)) in L1 as [I1 _]; auto.
  2:{ intros t t' It _ Hb. apply bind_Ok in Hb as (t1 & E1 & Hb).
      injection Hb as <-.
      destruct (emit_Ok _ _ _ E1) as (En & Em & Ei & Ej & Ek).
      apply (roll_inv_emit cap P n m i j "S" t t1); auto;
        simpl; covers_eval; lia. }
  apply (while_inv (roll_inv cap P n m i j)) in L2 as [I2 _]; auto.
  2:{ intros t t' It _ Hb. apply bind_Ok in Hb as (t1 & E1 & Hb).
      injection Hb as <-.
      destruct (emit_Ok _ _ _ E1) as (En & Em & Ei & Ej & Ek).
      apply (roll_inv_emit cap P n m i j "N" t t1); auto;
        simpl; covers_eval; lia. }
  apply (while_inv (roll_inv cap P n m i j)) in L3 as [I3 _]; auto.
  2:{ intros t t' It _ Hb.
      apply walk_step_cases in Hb
        as (o & t1 & Ho & E1 & En & Em & Ek & Eg & Ei & Ej).
      destruct t' as [n' m' i' j' k' g']. simpl in *. subst k' g'.
      apply (roll_inv_emit cap P n m i j o t t1); auto; lia. }
  apply (while_inv (roll_inv cap P n m i j)) in L4 as [I4 _]; auto.
  2:{ intros t t' It _ Hb. apply bind_Ok in Hb as (t1 & E1 & Hb).
      injection Hb as <-.
      destruct (emit_Ok _ _ _ E1) as (En & Em & Ei & Ej & Ek).
      apply (roll_inv_emit cap P n m i j "N" t t1); auto;
        simpl; covers_eval; lia. }
  apply (while_inv (roll_inv cap P n m i j)) in L5 as [I5 _]; auto.
  intros t t' It _ Hb. apply bind_Ok in Hb as (t1 & E1 & Hb).
  injection Hb as <-.
  destruct (emit_Ok _ _ _ E1) as (En & Em & Ei & Ej & Ek).
  apply (roll_inv_emit cap P n m i j "S" t t1); auto;
        simpl; covers_eval; lia.
Qed.

Lemma covers_range (c : ascii) :
  c <> "T"%char -> 0 <= covers1 c <= 1 /\ 0 <= covers2 c <= 1.
Proof.
  intros H. unfold covers1, covers2.
  destruct (Ascii.eqb_spec c "T"); [contradiction|].
  split.
  - destruct (existsb _ _); lia.
  - destruct (existsb _ _); lia.
Qed.

(* where n, m, i and j stand after the five loops *)
Lemma roll_loops_end (igar edits : list ascii) (n m i j : Z) (s : roll) :
  -1 <= i <= n - 1 -> -1 <= j <= m - 1 -> ~ In "T"%char edits ->
  roll_loops igar n m i j edits = Ok s ->
  r_n s = i + 1 /\ r_m s = j + 1 /\ r_i s = -1 /\ r_j s = -1.
Proof.
  intros Hi Hj HT H. unfold roll_loops, loop in H.
  apply bind_Ok in H as (s1 & L1 & H).
  apply bind_Ok in H as (s2 & L2 & H).
  apply bind_Ok in H as (s3 & L3 & H).
  apply bind_Ok in H as (s4 & L4 & L5).
  apply (while_inv (fun t => r_i t = i /\ r_j t = j /\ r_m t = m /\
                             r_n t - 1 >= i)) in L1 as [I1 C1].
  2:{ intros t t' It C Hb. emit_step Hb. simpl. lia. }
  2:{ simpl. lia. }
  apply (while_inv (fun t => r_i t = i /\ r_j t = j /\ r_n t = i + 1 /\
                             r_m t - 1 >= j)) in L2 as [I2 C2].
  2:{ intros t t' It C Hb. emit_step Hb. simpl. lia. }
  2:{ lia. }
  apply (while_inv (fun t => r_n t = i + 1 /\ r_m t = j + 1 /\
                             -1 <= r_i t /\ -1 <= r_j t)) in L3 as [I3 C3].
  2:{ intros t t' It C Hb.
      apply walk_step_cases in Hb
        as (o & t1 & Ho & E1 & En & Em & Ek & Eg & Ei & Ej).
      assert (o <> "T"%char) as HoT by (intros ->; contradiction).
      pose proof (covers_range o HoT). lia. }
  2:{ lia. }
  apply (while_inv (fun t => r_n t = i + 1 /\ r_m t = j + 1 /\
                             -1 <= r_i t /\ -1 <= r_j t)) in L4 as [I4 C4].
  2:{ intros t t' It C Hb. emit_step Hb. simpl. lia. }
  2:{ exact I3. }
  apply (while_inv (fun t => r_n t = i + 1 /\ r_m t = j + 1 /\
                             -1 <= r_i t /\ r_j t = -1)) in L5 as [I5 C5].
  2:{ intros t t' It C Hb. emit_step Hb. simpl. lia. }
  2:{ lia. }
  lia.
Qed.

Lemma total_app (w : ascii -> Z) (a b : list ascii) :
  total w (a ++ b) = total w a + total w b.
Proof.
  induction a as [|x a IH]; simpl; [reflexivity|].
  unfold total in *. simpl. rewrite IH. lia.
Qed.

(* the backtracker on in-range arguments and a trace without 'T' *)
Lemma roll_cigar_spans_aux (n m i j : Z) (edits : list ascii)
    (script : list CigarOp) :
  -1 <= i < n -> -1 <= j < m -> ~ In "T"%char edits ->
  _roll_cigar n m i j edits = Ok script ->
  span1 script = n /\ span2 script = m.
Proof.
  intros Hi Hj HT H. unfold _roll_cigar, roll_trace in H.
  apply bind_Ok in H as (s & Hs & He).
  apply encode_runs_sound in He as [_ He].
  pose proof (roll_loops_inv _ (fun _ => True) edits n m i j s I I
                (fun _ _ => I) Hs) as (_ & _ & T1 & T2 & _ & _).
  destruct (roll_loops_end _ edits n m i j s ltac:(lia) ltac:(lia) HT Hs)
    as (En & Em & Ei & Ej).
  unfold span1, span2. rewrite He. lia.
Qed.

(** X17. Called with a best cell inside the table (-1 <= i < n,
    -1 <= j < m) on a trace without 'T', _roll_cigar returns only scripts
    that account for both sequences in full: the operations that advance in
    the first sequence cover n symbols, those that advance in the second
    cover m. *)
Theorem roll_cigar_spans (n m i j : Z) (edits : list ascii)
    (script : list CigarOp) :
  -1 <= i < n -> -1 <= j < m -> ~ In "T"%char edits ->
  _roll_cigar n m i j edits = Ok script ->
  span1 script = n /\ span2 script = m.
Proof. apply roll_cigar_spans_aux. Qed.

Lemma roll_cigar_spans_witness :
  span1 [mkCigarOp "S" 1; mkCigarOp "=" 1; mkCigarOp "X" 1; mkCigarOp "=" 1;
         mkCigarOp "S" 1] = 5 /\
  span2 [mkCigarOp "S" 1; mkCigarOp "=" 1; mkCigarOp "X" 1; mkCigarOp "=" 1;
         mkCigarOp "S" 1] = 3.
Proof.
  apply (roll_cigar_spans 5 3 3 2 (bytes "DDD=DDDXDDD=DDD")).
  - lia.
  - lia.
  - simpl. intuition discriminate.
  - vm_compute. reflexivity.
Defined.

(** ** The tables of the alignment engines *)

Lemma pick_op_table (c1 c2 : ascii) (mcost match_ insert : Z) :
  table_op (pick_op c1 c2 mcost match_ insert) = true.
Proof.
  unfold pick_op.
  destruct ((mcost =? match_) && Ascii.eqb c1 c2); [reflexivity|].
  destruct (mcost =? match_); [reflexivity|].
  destruct (mcost =? insert); reflexivity.
Qed.

Lemma table_inv_cell (n m i j : Z) (cost cost' gap1 gap1' gap2 gap2' : list Z)
    (edits : list ascii) (o : ascii) (max_i max_j max_cost : Z)
    (max_i' max_j' max_cost' : Z) :
  0 <= i < n -> 0 <= j < m ->
  length cost' = length cost -> table_op o = true ->
  ((max_i' = i /\ max_j' = j) \/ (max_i' = max_i /\ max_j' = max_j)) ->
  table_inv n m (m * i + j) (mkDp cost gap1 gap2 edits max_i max_j max_cost) ->
  table_inv n m (m * i + j + 1)
    (mkDp cost' gap1' gap2' (store edits (m * i + j) o)
       max_i' max_j' max_cost').
Proof.
  intros Hi Hj Hlen Ho Hmax (Hc & He & Hfill & Hm). simpl in *.
  unfold table_inv. simpl. rewrite store_length, Hlen.
  repeat split; auto.
  - intros x Hx. destruct (Z.eq_dec x (m * i + j)) as [->|Hne].
    + rewrite load_store_same; auto. nia.
    + rewrite load_store_other by nia. apply Hfill. lia.
  - destruct Hmax as [[-> ->]|[-> ->]]; [right; lia | exact Hm].
Qed.

Lemma sw_cell_ok (s2 : list ascii) (match_score mismatch_score gap_score : Z)
    (n m : Z) :
  cell_ok n m (sw_cell s2 match_score mismatch_score gap_score m).
Proof.
  intros i c1 [cost gap1 gap2 edits max_i max_j max_cost] j Hi Hj H.
  unfold sw_cell.
  match goal with
  | |- context [if ?b then _ else _] => destruct b
  end; (apply (table_inv_cell n m i j cost _ gap1 _ gap2 _ edits _
                 max_i max_j max_cost); auto;
        try apply store_length; try apply pick_op_table).
Qed.

Lemma gotoh_cell_ok (s2 : list ascii)
    (match_score mismatch_score gap_open_score gap_extend_score : Z)
    (n m : Z) :
  cell_ok n m (gotoh_cell s2 match_score mismatch_score
                 gap_open_score gap_extend_score m).
Proof.
  intros i c1 [cost gap1 gap2 edits max_i max_j max_cost] j Hi Hj H.
  unfold gotoh_cell.
  match goal with
  | |- context [if ?b >? _ then _ else _] => destruct (b >? max_cost)
  end; (apply (table_inv_cell n m i j cost _ gap1 _ gap2 _ edits _
                 max_i max_j max_cost); auto;
        try apply store_length; try apply pick_op_table).
Qed.

Lemma cells_inv (n m i : Z) (c1 : ascii) (cell : Z -> ascii -> dp -> Z -> dp) :
  cell_ok n m cell -> 0 <= i < n ->
  forall (len k : nat) (d : dp),
  Z.of_nat (k + len) <= m ->
  table_inv n m (m * i + Z.of_nat k) d ->
  table_inv n m (m * i + Z.of_nat (k + len))
    (fold_left (cell i c1) (map Z.of_nat (seq k len)) d).
Proof.
  intros Hcell Hi. induction len as [|len IH]; intros k d Hk H.
  - simpl. now rewrite Nat.add_0_r.
  - cbn [seq map fold_left].
    replace (k + S len)%nat with (S k + len)%nat by lia.
    apply IH; [lia|].
    replace (m * i + Z.of_nat (S k)) with (m * i + Z.of_nat k + 1) by lia.
    apply Hcell; auto. lia.
Qed.

Lemma table_inv_lengths (n m filled : Z) (d d' : dp) :
  length (d_cost d') = length (d_cost d) -> d_edits d' = d_edits d ->
  d_max_i d' = d_max_i d -> d_max_j d' = d_max_j d ->
  table_inv n m filled d -> table_inv n m filled d'.
Proof.
  unfold table_inv. intros -> -> -> ->. auto.
Qed.

Lemma dp_row_inv (n : Z) (m : nat) (cell : Z -> ascii -> dp -> Z -> dp)
    (clear : bool) (s1 : list ascii) (i : Z) (d : dp) :
  cell_ok n (Z.of_nat m) cell -> 0 <= i < n ->
  table_inv n (Z.of_nat m) (Z.of_nat m * i) d ->
  table_inv n (Z.of_nat m) (Z.of_nat m * (i + 1))
    (dp_row cell clear s1 (Z.of_nat m) d i).
Proof.
  intros Hcell Hi H. unfold dp_row.
  destruct d as [cost gap1 gap2 edits max_i max_j max_cost].
  rewrite range_of_nat.
  replace (Z.of_nat m * (i + 1))
    with (Z.of_nat m * i + Z.of_nat (0 + m)) by lia.
  apply cells_inv; auto; [simpl; lia|].
  rewrite Z.add_0_r.
  eapply table_inv_lengths; [| | | | exact H]; simpl; auto.
  apply store_length.
Qed.

Lemma rows_inv (n : Z) (m : nat) (cell : Z -> ascii -> dp -> Z -> dp)
    (clear : bool) (s1 : list ascii) :
  cell_ok n (Z.of_nat m) cell ->
  forall (len r : nat) (d : dp),
  Z.of_nat (r + len) <= n ->
  table_inv n (Z.of_nat m) (Z.of_nat m * Z.of_nat r) d ->
  table_inv n (Z.of_nat m) (Z.of_nat m * Z.of_nat (r + len))
    (fold_left (dp_row cell clear s1 (Z.of_nat m))
       (map Z.of_nat (seq r len)) d).
Proof.
  intros Hcell. induction len as [|len IH]; intros r d Hr H.
  - simpl. now rewrite Nat.add_0_r.
  - cbn [seq map fold_left].
    replace (r + S len)%nat with (S r + len)%nat by lia.
    apply IH; [lia|].
    replace (Z.of_nat (S r)) with (Z.of_nat r + 1) by lia.
    apply dp_row_inv; auto. lia.
Qed.

Lemma clear_length (a : list Z) (js : list Z) :
  length (fold_left (fun a j => store a j 0) js a) = length a.
Proof.
  revert a. induction js as [|j js IH]; intros a; simpl; auto.
  now rewrite IH, store_length.
Qed.

Lemma table_start (n m : nat) (cost gap1 gap2 : list Z) :
  length cost = Z.to_nat ((Z.of_nat n + 1) * (Z.of_nat m + 1)) ->
  table_inv (Z.of_nat n) (Z.of_nat m) (Z.of_nat m * Z.of_nat 0%nat)
    (mkDp cost gap1 gap2
       (repeat zero (Z.to_nat (Z.of_nat n * Z.of_nat m))) 0 0 0).
Proof.
  intros Hc. unfold table_inv. simpl. rewrite repeat_length, Hc.
  repeat split; lia.
Qed.

Lemma sw_table_inv (s1 s2 : list ascii)
    (match_score mismatch_score gap_score : Z) :
  table_inv (PyString_Size s1) (PyString_Size s2)
    (PyString_Size s1 * PyString_Size s2)
    (sw_table s1 s2 match_score mismatch_score gap_score).
Proof.
  unfold sw_table, PyString_Size. rewrite (range_of_nat (length s1)).
  replace (Z.of_nat (length s1) * Z.of_nat (length s2))
    with (Z.of_nat (length s2) * Z.of_nat (0 + length s1)) at 1 by lia.
  apply rows_inv; [apply sw_cell_ok | simpl; lia|].
  apply table_start. now rewrite clear_length, repeat_length.
Qed.

Lemma gotoh_table_inv (s1 s2 : list ascii)
    (match_score mismatch_score gap_open_score gap_extend_score : Z) :
  table_inv (PyString_Size s1) (PyString_Size s2)
    (PyString_Size s1 * PyString_Size s2)
    (gotoh_table s1 s2 match_score mismatch_score
       gap_open_score gap_extend_score).
Proof.
  unfold gotoh_table, PyString_Size. rewrite (range_of_nat (length s1)).
  replace (Z.of_nat (length s1) * Z.of_nat (length s2))
    with (Z.of_nat (length s2) * Z.of_nat (0 + length s1)) at 1 by lia.
  apply rows_inv; [apply gotoh_cell_ok | simpl; lia|].
  apply table_start. now rewrite clear_length, repeat_length.
Qed.

(** ** What the alignment engines return *)

Lemma load_chk_out {A} (a : list A) (i : Z) :
  Z.of_nat (length a) <= i -> load_chk a i = OutOfBounds.
Proof.
  intros H. unfold load_chk.
  destruct (Z.ltb_spec i (Z.of_nat (length a))); [lia|].
  now rewrite andb_false_r.
Qed.

Lemma load_chk_nil {A} (i : Z) : @load_chk A [] i = OutOfBounds.
Proof.
  unfold load_chk. simpl.
  destruct (Z.leb_spec 0 i), (Z.ltb_spec i 0); simpl; try reflexivity; lia.
Qed.

(* with no recorded operation the walk cannot take its first step *)
Lemma roll_loops_no_trace (igar : list ascii) (n m i j : Z) (s : roll) :
  0 <= i -> 0 <= j -> roll_loops igar n m i j [] <> Ok s.
Proof.
  intros Hi Hj H. unfold roll_loops, loop in H.
  apply bind_Ok in H as (s1 & L1 & H).
  apply bind_Ok in H as (s2 & L2 & H).
  apply bind_Ok in H as (s3 & L3 & _).
  apply (while_inv (fun t => r_i t = i /\ r_j t = j)) in L1 as [I1 _].
  2:{ intros t t' It C Hb. emit_step Hb. simpl. lia. }
  2:{ simpl. lia. }
  apply (while_inv (fun t => r_i t = i /\ r_j t = j)) in L2 as [I2 _].
  2:{ intros t t' It C Hb. emit_step Hb. simpl. lia. }
  2:{ exact I1. }
  assert ((r_i s2 >=? 0) && (r_j s2 >=? 0) = true) as C.
  { destruct I2 as [-> ->].
    destruct (Z.geb_spec i 0); [|lia]. destruct (Z.geb_spec j 0); [|lia].
    reflexivity. }
  destruct (Z.to_nat (r_i s2 + r_j s2 + 1)); simpl in L3; rewrite C in L3.
  - discriminate.
  - unfold walk_step in L3. rewrite load_chk_nil in L3. discriminate.
Qed.

Lemma table_inv_ops (n m : Z) (d : dp) :
  table_inv n m (n * m) d ->
  forall x, In x (d_edits d) -> table_op x = true.
Proof.
  intros (_ & He & Hfill & _) x Hx.
  destruct (In_nth _ _ zero Hx) as (k & Hk & <-).
  rewrite <- (load_of_nat zero). apply Hfill. lia.
Qed.

(* a call that returns was given two non-empty sequences, and its best cell
   is a cell of the table *)
Lemma finish_Ok_nonempty (n m : Z) (d : dp) (r : Z * list CigarOp) :
  0 <= n -> 0 <= m -> table_inv n m (n * m) d -> finish n m d = Ok r ->
  0 <= d_max_i d < n /\ 0 <= d_max_j d < m.
Proof.
  intros Hn Hm Hinv H.
  pose proof Hinv as (Hc & He & _ & Hmax).
  unfold finish in H.
  apply bind_Ok in H as (score & Hs & H).
  apply bind_Ok in H as (cigar & Hr & _).
  destruct Hmax as [[E1 E2]|Hin]; [|exact Hin].
  rewrite E1, E2 in *.
  destruct (Z.eq_dec n 0) as [->|Hn0].
  { rewrite load_chk_out in Hs; [discriminate | lia]. }
  destruct (Z.eq_dec m 0) as [->|Hm0]; [|lia].
  assert (d_edits d = []) as Ee by (apply length_zero_iff_nil; lia).
  rewrite Ee in Hr. unfold _roll_cigar, roll_trace in Hr.
  apply bind_Ok in Hr as (s & Hr & _).
  apply roll_loops_no_trace in Hr; [contradiction | lia | lia].
Qed.

Lemma table_op_align (c : ascii) : table_op c = true -> align_sym c = true.
Proof.
  unfold table_op, align_sym. simpl.
  destruct (Ascii.eqb c "="), (Ascii.eqb c "X"), (Ascii.eqb c "I"),
    (Ascii.eqb c "D"); simpl; intros H; try discriminate;
    repeat rewrite orb_true_r; reflexivity.
Qed.

Lemma align_sym_cases (c : ascii) :
  align_sym c = true ->
  In (String c EmptyString) align_ops /\ known_op c = true /\
  c <> "T"%char /\ covers1 c <= 1 /\ covers2 c <= 1.
Proof.
  unfold align_sym. rewrite existsb_exists. intros (x & Hx & E).
  apply Ascii.eqb_eq in E. subst x.
  simpl in Hx.
  repeat (destruct Hx as [<-|Hx];
          [repeat split; try (vm_compute; intuition discriminate);
           (unfold align_ops; simpl; tauto)|]).
  contradiction.
Qed.

Lemma total_le_length (w : ascii -> Z) (l : list ascii) :
  Forall (fun c => w c <= 1) l -> total w l <= Z.of_nat (length l).
Proof.
  induction 1 as [|c l Hc Hl IH]; [simpl; lia|].
  unfold total in *. simpl fold_right. simpl length. lia.
Qed.

Lemma rle_step_entries (st st' : ascii * Z * list CigarOp) (c : ascii) :
  rle_step st c = Ok st' ->
  Forall entry_ok (snd st) -> Forall entry_ok (snd st').
Proof.
  destruct st as [[o n] cigar]. unfold rle_step. simpl.
  destruct (Ascii.eqb c o).
  - intros H. injection H as <-. auto.
  - destruct (negb (n =? 0)); simpl; intros H Hok.
    + unfold _op_str in H. destruct (known_op o) eqn:K; [|discriminate].
      simpl in H. injection H as <-. simpl.
      apply Forall_app. split; auto. constructor; [|constructor].
      exists o. auto.
    + injection H as <-. auto.
Qed.

Lemma rle_fold_entries (syms : list ascii) :
  forall st0 st1 : ascii * Z * list CigarOp,
  foldM rle_step syms st0 = Ok st1 ->
  Forall entry_ok (snd st0) -> Forall entry_ok (snd st1).
Proof.
  induction syms as [|c l IH]; intros st0 st1 Hf0 H0; simpl in Hf0.
  - now injection Hf0 as <-.
  - apply bind_Ok in Hf0 as (st2 & H2 & Hf0).
    apply (IH st2 st1 Hf0). eapply rle_step_entries; eauto.
Qed.

Lemma encode_runs_entries (syms : list ascii) (script : list CigarOp) :
  encode_runs syms = Ok script -> Forall entry_ok script.
Proof.
  unfold encode_runs. intros H. apply bind_Ok in H as (st & Hf & Hfl).
  assert (Forall entry_ok (snd st)) as Hst.
  { apply (rle_fold_entries syms _ _ Hf). constructor. }
  destruct st as [[o n] cigar]. unfold rle_flush in Hfl. simpl in Hst.
  destruct (negb (n =? 0)); simpl in Hfl.
  - unfold _op_str in Hfl. destruct (known_op o) eqn:K; [|discriminate].
    simpl in Hfl. injection Hfl as <-.
    apply Forall_app. split; auto. constructor; [|constructor].
    exists o. auto.
  - now injection Hfl as <-.
Qed.

Lemma expand_In (script : list CigarOp) (c : CigarOp) :
  In c script -> 0 < count c -> In (op_char c) (expand script).
Proof.
  intros Hc Hpos. unfold expand. apply in_flat_map. exists c. split; auto.
  destruct (Z.to_nat (count c)) eqn:E; [lia|]. simpl. auto.
Qed.

(* everything the engines guarantee about a script they return *)
Lemma finish_Ok_script (n m : Z) (d : dp) (score : Z)
    (script : list CigarOp) :
  0 <= n -> 0 <= m -> table_inv n m (n * m) d ->
  finish n m d = Ok (score, script) ->
  span1 script = n /\ span2 script = m /\
  Forall (fun c => In (op c) align_ops) script /\
  Z.of_nat (length (expand script)) = Z.max n m /\
  Forall (fun a => align_sym a = true) (expand script).
Proof.
  intros Hn Hm Hinv H.
  destruct (finish_Ok_nonempty n m d _ Hn Hm Hinv H) as (Hi & Hj).
  pose proof (table_inv_ops n m d Hinv) as Hops.
  unfold finish in H.
  apply bind_Ok in H as (sc & _ & H).
  apply bind_Ok in H as (cigar & Hr & H). injection H as _ ->.
  assert (~ In "T"%char (d_edits d)) as HT.
  { intros HinT. apply Hops in HinT. discriminate. }
  destruct (roll_cigar_spans_aux n m (d_max_i d) (d_max_j d) (d_edits d)
              script ltac:(lia) ltac:(lia) HT Hr)
    as (S1 & S2).
  unfold _roll_cigar, roll_trace in Hr.
  apply bind_Ok in Hr as (s & Hs & He).
  pose proof (encode_runs_entries _ _ He) as Hent.
  apply encode_runs_sound in He as [[Hpos _] He].
  pose proof (roll_loops_inv _ (fun c => align_sym c = true) (d_edits d)
                n m _ _ s eq_refl eq_refl
                (fun x Hx => table_op_align x (Hops x Hx)) Hs)
    as (_ & Hk & _ & _ & Hl & HP).
  split; [exact S1|]. split; [exact S2|].
  split; [|split; [|now rewrite He]].
  - rewrite Forall_forall in *. intros c Hc.
    destruct (Hent c Hc) as (a & Ea & _).
    pose proof (expand_In script c Hc (Hpos c Hc)) as Hin.
    rewrite He in Hin. apply HP, align_sym_cases in Hin as (Hin & _).
    unfold op_char in Hin. rewrite Ea in *. exact Hin.
  - rewrite He.
    assert (total covers1 (emitted s) <= Z.of_nat (length (emitted s))).
    { apply total_le_length. eapply Forall_impl; [|exact HP].
      intros c Hc. now apply align_sym_cases in Hc. }
    assert (total covers2 (emitted s) <= Z.of_nat (length (emitted s))).
    { apply total_le_length. eapply Forall_impl; [|exact HP].
      intros c Hc. now apply align_sym_cases in Hc. }
    unfold span1, span2 in *. rewrite He in *.
    rewrite max2_max in Hk. lia.
Qed.

(* both engines end in [finish] on a table that satisfies the invariant *)
Lemma engines_finish (s1 s2 : list ascii)
    (match_score mismatch_score gap_score gap_extend_score : Z)
    (r : outcome (Z * list CigarOp)) :
  smith_waterman s1 s2 match_score mismatch_score gap_score = r \/
  smith_waterman_gotoh s1 s2 match_score mismatch_score
    gap_score gap_extend_score = r ->
  exists d,
    table_inv (PyString_Size s1) (PyString_Size s2)
      (PyString_Size s1 * PyString_Size s2) d /\
    finish (PyString_Size s1) (PyString_Size s2) d = r.
Proof.
  intros [H|H].
  - eexists. split; [apply sw_table_inv | exact H].
  - unfold smith_waterman_gotoh in H.
    destruct (gap_score =? gap_extend_score).
    + eexists. split; [apply sw_table_inv | exact H].
    + eexists. split; [apply gotoh_table_inv | exact H].
Qed.

Lemma size_nonneg (s : list ascii) : 0 <= PyString_Size s.
Proof. unfold PyString_Size. lia. Qed.

(** X18. A script returned by smith_waterman or smith_waterman_gotoh
    accounts for both sequences in full: its S, =, X and D entries add up
    to the length of the first sequence, its N, =, X and I entries to the
    length of the second. *)
Theorem alignment_script_spans (s1 s2 : list ascii)
    (match_score mismatch_score gap_score gap_extend_score : Z)
    (score : Z) (script : list CigarOp) :
  smith_waterman s1 s2 match_score mismatch_score gap_score
    = Ok (score, script) \/
  smith_waterman_gotoh s1 s2 match_score mismatch_score
    gap_score gap_extend_score = Ok (score, script) ->
  span1 script = PyString_Size s1 /\ span2 script = PyString_Size s2.
Proof.
  intros H. apply engines_finish in H as (d & Hinv & H).
  destruct (finish_Ok_script _ _ d score script (size_nonneg s1)
              (size_nonneg s2) Hinv H) as (S1 & S2 & _).
  auto.
Qed.

Lemma alignment_script_spans_witness :
  span1 [mkCigarOp "=" 1; mkCigarOp "D" 1; mkCigarOp "=" 1; mkCigarOp "D" 1;
         mkCigarOp "=" 1] = PyString_Size (bytes "abcbd") /\
  span2 [mkCigarOp "=" 1; mkCigarOp "D" 1; mkCigarOp "=" 1; mkCigarOp "D" 1;
         mkCigarOp "=" 1] = PyString_Size (bytes "acd").
Proof.
  apply (alignment_script_spans (bytes "abcbd") (bytes "acd") 2 (-1) (-1)
           (-1) 4).
  left. vm_compute. reflexivity.
Defined.

(** X19. The entries of a script returned by smith_waterman or
    smith_waterman_gotoh carry only the operations S, N, =, X, I and D;
    'M' and 'T' do not occur. *)
Theorem alignment_script_ops (s1 s2 : list ascii)
    (match_score mismatch_score gap_score gap_extend_score : Z)
    (score : Z) (script : list CigarOp) :
  smith_waterman s1 s2 match_score mismatch_score gap_score
    = Ok (score, script) \/
  smith_waterman_gotoh s1 s2 match_score mismatch_score
    gap_score gap_extend_score = Ok (score, script) ->
  Forall (fun c => In (op c) align_ops) script.
Proof.
  intros H. apply engines_finish in H as (d & Hinv & H).
  destruct (finish_Ok_script _ _ d score script (size_nonneg s1)
              (size_nonneg s2) Hinv H) as (_ & _ & Hops & _).
  exact Hops.
Qed.

Lemma alignment_script_ops_witness :
  Forall (fun c => In (op c) align_ops)
    [mkCigarOp "S" 1; mkCigarOp "=" 1; mkCigarOp "X" 1; mkCigarOp "=" 1;
     mkCigarOp "S" 1].
Proof.
  apply (alignment_script_ops (bytes "abcbd") (bytes "beb") 2 (-1) (-1)
           (-1) 3).
  left. vm_compute. reflexivity.
Defined.







(** ** The alignment engines never raise *)












(** ** damerau_levenshtein_distance and the table of its docstring *)

Lemma dl_table_0 (s1 s2 : list ascii) (r : nat) :
  dl_table s1 s2 r 0 = Z.of_nat r.
Proof. destruct r; reflexivity. Qed.

Lemma dl_table_row0 (s1 s2 : list ascii) (c : nat) :
  dl_table s1 s2 0 c = Z.of_nat c.
Proof. reflexivity. Qed.

Lemma dl_rows_snd (s1 s2 : list ascii) (r : nat) :
  snd (dl_rows s1 s2 (S r)) = fst (dl_rows s1 s2 r).
Proof. reflexivity. Qed.

Lemma dl_table_S (s1 s2 : list ascii) (r c : nat) :
  dl_table s1 s2 (S r) (S c)
  = min4 (dl_table s1 s2 r c + sub_cost s1 s2 r c)
         (dl_table s1 s2 (S r) c + 1)
         (dl_table s1 s2 r (S c) + 1)
         (if transposed s1 s2 r c
          then dl_table s1 s2 (Nat.pred r) (Nat.pred c) + 1
          else dl_table s1 s2 r c + sub_cost s1 s2 r c).
Proof. destruct r; reflexivity. Qed.

Lemma pred_of_nat (k : nat) : Z.to_nat (Z.of_nat k - 1) = Nat.pred k.
Proof. lia. Qed.

Lemma eqb_of_nat (k : nat) : (Z.of_nat k =? 0) = (k =? 0)%nat.
Proof.
  destruct (Z.eqb_spec (Z.of_nat k) 0), (Nat.eqb_spec k 0); auto; lia.
Qed.

Lemma dl_cells_table (s1 s2 : list ascii) (r : nat) (prev2 prev1 : list Z)
    (width : nat) :
  (forall c, (c < width)%nat -> nth c prev1 0 = dl_table s1 s2 r c) ->
  ((0 < r)%nat -> forall c, (c < width)%nat ->
   nth c prev2 0 = dl_table s1 s2 (Nat.pred r) c) ->
  forall (len k : nat) (cur : list Z),
  length cur = width -> (k + len < width)%nat ->
  (forall x, (x <= k)%nat -> nth x cur 0 = dl_table s1 s2 (S r) x) ->
  let cur' := fold_left
                (dl_cell s1 s2 (Z.of_nat r) (nth r s1 zero) prev2 prev1)
                (map Z.of_nat (seq k len)) cur in
  length cur' = width /\
  forall x, (x <= k + len)%nat -> nth x cur' 0 = dl_table s1 s2 (S r) x.
Proof.
  intros Hp1 Hp2 len. induction len as [|len IH]; intros k cur Hl Hk Hcur.
  - simpl. split; auto. intros x Hx. apply Hcur. lia.
  - cbn [seq map fold_left].
    specialize (IH (S k)
      (dl_cell s1 s2 (Z.of_nat r) (nth r s1 zero) prev2 prev1 cur
         (Z.of_nat k))).
    replace (k + S len)%nat with (S k + len)%nat by lia.
    apply IH; clear IH.
    + unfold dl_cell, store. now apply store_nth_length_eq.
    + lia.
    + intros x Hx. unfold dl_cell.
      replace (Z.of_nat k + 1) with (Z.of_nat (S k)) by lia.
      rewrite !store_of_nat, !load_of_nat, char_at_of_nat.
      destruct (Nat.eq_dec x (S k)) as [->|Hne].
      * rewrite nth_store_nth_same by lia.
        rewrite dl_table_S, (Hp1 k), (Hp1 (S k)), (Hcur k) by lia.
        unfold char_at, load. rewrite !pred_of_nat, !eqb_of_nat.
        fold (sub_cost s1 s2 r k). fold (transposed s1 s2 r k).
        destruct (transposed s1 s2 r k) eqn:T; [|reflexivity].
        rewrite Hp2; [reflexivity| |lia].
        unfold transposed in T. destruct r; [discriminate | lia].
      * rewrite nth_store_nth_other by congruence. apply Hcur. lia.
Qed.

Lemma dl_row_table (s1 s2 : list ascii) (m r : nat)
    (st : list Z * list Z * list Z) :
  dl_rows_at s1 s2 (S m) r st ->
  dl_rows_at s1 s2 (S m) (S r) (dl_row s1 s2 (Z.of_nat m) st (Z.of_nat r)).
Proof.
  destruct st as [[cur p1] p2]. intros (Hc & H1 & H2 & Hrow & Hprev).
  unfold dl_row, dl_rows_at. rewrite range_of_nat, char_at_of_nat.
  change 0 with (Z.of_nat 0) at 1. rewrite store_of_nat.
  destruct (dl_cells_table s1 s2 r p1 cur (S m) Hrow Hprev m 0%nat
              (store_nth p2 0 (Z.of_nat r + 1))) as (Hlen & Hnew).
  - now apply store_nth_length_eq.
  - lia.
  - intros x Hx. assert (x = 0%nat) as -> by lia.
    rewrite nth_store_nth_same by lia. rewrite dl_table_0. lia.
  - repeat split; auto. intros c Hc'. apply Hnew. lia.
Qed.

Lemma dl_rows_table (s1 s2 : list ascii) (m : nat) :
  forall (len r : nat) (st : list Z * list Z * list Z),
  dl_rows_at s1 s2 (S m) r st ->
  dl_rows_at s1 s2 (S m) (r + len)
    (fold_left (dl_row s1 s2 (Z.of_nat m)) (map Z.of_nat (seq r len)) st).
Proof.
  induction len as [|len IH]; intros r st H.
  - simpl. now rewrite Nat.add_0_r.
  - cbn [seq map fold_left].
    replace (r + S len)%nat with (S r + len)%nat by lia.
    apply IH. now apply dl_row_table.
Qed.

Lemma dl_dp_table_aux (s1 s2 : list ascii) :
  dl_dp s1 s2 = dl_table s1 s2 (length s1) (length s2).
Proof.
  unfold dl_dp, PyString_Size, iota_row.
  rewrite (range_of_nat (length s1)).
  pose proof (dl_rows_table s1 s2 (length s2) (length s1) 0
                (range (Z.of_nat (length s2) + 1),
                 map (fun _ => 0) (range (Z.of_nat (length s2) + 1)),
                 map (fun _ => 0) (range (Z.of_nat (length s2) + 1)))) as H.
  destruct (fold_left _ _ _) as [[cur p1] p2].
  rewrite load_of_nat.
  destruct H as (_ & _ & _ & Hrow & _).
  - replace (Z.of_nat (length s2) + 1) with (Z.of_nat (S (length s2))) by lia.
    unfold dl_rows_at. rewrite length_map, range_length.
    repeat split; auto.
    + intros c Hc. now rewrite nth_range.
    + intros Hr. lia.
  - apply Hrow. lia.
Qed.

(** X24. The rolling three-row loop of damerau_levenshtein_distance
    computes the entry cost[n,m] of the recurrence in its docstring, with
    the transposition rule, n and m being the lengths of the two sequences
    it runs on. *)
Theorem dl_dp_table (s1 s2 : list ascii) :
  dl_dp s1 s2 = dl_table s1 s2 (length s1) (length s2).
Proof. apply dl_dp_table_aux. Qed.

Lemma min4_min (a b c d : Z) : min4 a b c d = Z.min (Z.min a b) (Z.min c d).
Proof. unfold min4. now rewrite !min2_min. Qed.

(* induction over the table, with the entry two rows and two columns back *)
Lemma dl_table_ind (P : nat -> nat -> Prop) :
  (forall c, P 0%nat c) ->
  (forall r, P r 0%nat) ->
  (forall r c, P r c -> P (S r) c -> P r (S c) ->
               P (Nat.pred r) (Nat.pred c) -> P (S r) (S c)) ->
  forall r c, P r c.
Proof.
  intros H0 Hc0 HS r.
  assert (forall r' c, (r' <= r)%nat -> P r' c) as H; [|intros c; now apply H].
  induction r as [|r IH]; intros r' c Hr.
  - assert (r' = 0%nat) as -> by lia. apply H0.
  - destruct (Nat.eq_dec r' (S r)) as [->|Hne]; [|apply IH; lia].
    induction c as [|c IHc]; [apply Hc0|].
    apply HS; auto; apply IH; lia.
Qed.

Lemma dl_table_bounds (s1 s2 : list ascii) (r c : nat) :
  Z.abs (Z.of_nat r - Z.of_nat c) <= dl_table s1 s2 r c
  <= Z.max (Z.of_nat r) (Z.of_nat c).
Proof.
  revert r c. apply dl_table_ind.
  - intros c. rewrite dl_table_row0. lia.
  - intros r. rewrite dl_table_0. lia.
  - intros r c H1 H2 H3 H4. rewrite dl_table_S, min4_min.
    pose proof (sub_cost_range s1 s2 r c).
    destruct (transposed s1 s2 r c); lia.
Qed.

Lemma transposed_sym (s1 s2 : list ascii) (r c : nat) :
  transposed s1 s2 r c = transposed s2 s1 c r.
Proof.
  unfold transposed.
  rewrite (ascii_eqb_sym (nth r s1 zero)), (ascii_eqb_sym (nth (Nat.pred r) s1 zero)).
  destruct (r =? 0)%nat, (c =? 0)%nat; simpl; auto.
  apply andb_comm.
Qed.

Lemma dl_table_sym (s1 s2 : list ascii) (r c : nat) :
  dl_table s1 s2 r c = dl_table s2 s1 c r.
Proof.
  revert r c. apply dl_table_ind.
  - intros c. now rewrite dl_table_0.
  - intros r. now rewrite dl_table_0.
  - intros r c H1 H2 H3 H4.
    rewrite !dl_table_S, !min4_min, H1, H2, H3, H4, sub_cost_sym,
      transposed_sym.
    destruct (transposed s2 s1 c r); lia.
Qed.

Lemma dl_table_zero (s1 s2 : list ascii) (r c : nat) :
  dl_table s1 s2 r c = 0 ->
  r = c /\ forall x, (x < r)%nat -> nth x s1 zero = nth x s2 zero.
Proof.
  revert r c. apply (dl_table_ind
    (fun r c => dl_table s1 s2 r c = 0 ->
       r = c /\ forall x, (x < r)%nat -> nth x s1 zero = nth x s2 zero)).
  - intros c H. rewrite dl_table_row0 in H. split; [lia|]. intros x Hx. lia.
  - intros r H. rewrite dl_table_0 in H. split; [lia|]. intros x Hx. lia.
  - intros r c H1 _ _ _ H. rewrite dl_table_S, min4_min in H.
    pose proof (dl_table_bounds s1 s2 r c).
    pose proof (dl_table_bounds s1 s2 (S r) c).
    pose proof (dl_table_bounds s1 s2 r (S c)).
    pose proof (dl_table_bounds s1 s2 (Nat.pred r) (Nat.pred c)).
    pose proof (sub_cost_range s1 s2 r c).
    assert (dl_table s1 s2 r c = 0 /\ sub_cost s1 s2 r c = 0) as [Hz Hc]
      by (destruct (transposed s1 s2 r c); lia).
    destruct (H1 Hz) as [-> Hbelow]. split; auto.
    intros x Hx. destruct (Nat.eq_dec x c) as [->|Hne].
    + unfold sub_cost in Hc.
      destruct (Ascii.eqb_spec (nth c s1 zero) (nth c s2 zero)); auto.
      discriminate.
    + apply Hbelow. lia.
Qed.

Lemma dl_table_diag (s : list ascii) (r : nat) : dl_table s s r r = 0.
Proof.
  induction r as [|r IH]; [reflexivity|].
  rewrite dl_table_S, min4_min, IH.
  pose proof (dl_table_bounds s s (S r) r).
  pose proof (dl_table_bounds s s r (S r)).
  pose proof (dl_table_bounds s s (Nat.pred r) (Nat.pred r)).
  unfold sub_cost. rewrite Ascii.eqb_refl.
  destruct (transposed s s r r); lia.
Qed.

(* the code below the call of reduce_match, fast path and swap included *)
Lemma damerau_levenshtein_core_table (s1 s2 : list ascii) :
  damerau_levenshtein_core s1 s2
  = dl_table s1 s2 (length s1) (length s2).
Proof.
  assert (forall a b : list ascii,
            match a with [] => PyString_Size b | _ => dl_dp a b end
            = dl_table a b (length a) (length b)) as H.
  { intros [|x a] b.
    - reflexivity.
    - apply dl_dp_table_aux. }
  unfold damerau_levenshtein_core.
  destruct (PyString_Size s1 <? PyString_Size s2).
  - rewrite H. apply dl_table_sym.
  - apply H.
Qed.

(** X25. With an empty first sequence damerau_levenshtein_distance returns
    the length of the second one; with an empty second sequence it returns
    1 for every non-empty first sequence (and 0 for the empty one). *)
Theorem damerau_levenshtein_distance_empty (S : list ascii) :
  damerau_levenshtein_distance [] S = PyString_Size S /\
  damerau_levenshtein_distance S [] = Z.min 1 (PyString_Size S).
Proof.
  unfold damerau_levenshtein_distance.
  destruct (reduce_match_empty_aux S) as [-> ->].
  rewrite !damerau_levenshtein_core_table. split.
  - reflexivity.
  - rewrite dl_table_0, length_firstn. unfold PyString_Size. lia.
Qed.

(** X26. damerau_levenshtein_distance returns 0 exactly on two equal
    sequences. *)
Theorem damerau_levenshtein_distance_zero (A B : list ascii) :
  damerau_levenshtein_distance A B = 0 <-> A = B.
Proof.
  unfold damerau_levenshtein_distance.
  destruct A as [|x A]; [|destruct B as [|y B]].
  - destruct (reduce_match_empty_aux B) as [-> _].
    rewrite damerau_levenshtein_core_table, dl_table_row0.
    destruct B; simpl; split; intros H; try reflexivity; try discriminate;
      lia.
  - destruct (reduce_match_empty_aux (x :: A)) as [_ ->].
    rewrite damerau_levenshtein_core_table, dl_table_0. simpl length.
    split; intros H; [lia | discriminate].
  - destruct (reduce_match_nonempty_aux (x :: A) (y :: B))
      as (p & a & b & s & E & EA & EB & _ & _); try discriminate.
    rewrite E, damerau_levenshtein_core_table, EA, EB. split.
    + intros H. apply dl_table_zero in H as [Hlen Hnth].
      now rewrite (nth_ext a b zero zero Hlen Hnth).
    + intros H. apply app_inv_head in H. apply app_inv_tail in H.
      subst b. apply dl_table_diag.
Qed.

Lemma damerau_levenshtein_distance_zero_witness :
  damerau_levenshtein_distance (bytes "abc") (bytes "abc") = 0.
Proof.
  apply (proj2 (damerau_levenshtein_distance_zero (bytes "abc")
                  (bytes "abc"))).
  reflexivity.
Defined.

(** X27. damerau_levenshtein_distance lies between 0 and the length of the
    longer sequence; on two non-empty sequences it is at least the
    difference of their lengths. *)
Theorem damerau_levenshtein_distance_bounds (A B : list ascii) :
  0 <= damerau_levenshtein_distance A B
    <= Z.max (PyString_Size A) (PyString_Size B) /\
  (A <> [] -> B <> [] ->
   Z.abs (PyString_Size A - PyString_Size B)
   <= damerau_levenshtein_distance A B).
Proof.
  unfold damerau_levenshtein_distance, PyString_Size.
  destruct (reduce_match A B) as [[a b] k] eqn:E.
  rewrite damerau_levenshtein_core_table.
  pose proof (dl_table_bounds a b (length a) (length b)) as Hb.
  assert (a = fst (fst (reduce_match A B))) as Ea by now rewrite E.
  assert (b = snd (fst (reduce_match A B))) as Eb by now rewrite E.
  pose proof (py_slice_length A) as LA. pose proof (py_slice_length B) as LB.
  split.
  - assert (length a <= length A)%nat by (subst a; apply LA).
    assert (length b <= length B)%nat by (subst b; apply LB).
    lia.
  - intros HA HB.
    destruct (reduce_match_nonempty_aux A B HA HB)
      as (p & a' & b' & s & E' & EA & EB & _ & _).
    rewrite E in E'. injection E' as <- <- _.
    apply (f_equal (@length ascii)) in EA, EB.
    rewrite !length_app in EA, EB. lia.
Qed.

Lemma damerau_levenshtein_distance_bounds_witness :
  0 <= damerau_levenshtein_distance (bytes "fee") (bytes "deed")
    <= Z.max (PyString_Size (bytes "fee")) (PyString_Size (bytes "deed")) /\
  Z.abs (PyString_Size (bytes "fee") - PyString_Size (bytes "deed"))
  <= damerau_levenshtein_distance (bytes "fee") (bytes "deed").
Proof.
  split.
  - apply (damerau_levenshtein_distance_bounds (bytes "fee") (bytes "deed")).
  - apply (damerau_levenshtein_distance_bounds (bytes "fee") (bytes "deed"));
      discriminate.
Defined.

Lemma min2_comm (a b : Z) : min2 a b = min2 b a.
Proof. rewrite !min2_min. lia. Qed.

(* on non-empty sequences reduce_match treats its two arguments alike *)
Lemma reduce_match_sym (A B a b : list ascii) (k : Z) :
  A <> [] -> B <> [] ->
  reduce_match A B = (a, b, k) -> reduce_match B A = (b, a, k).
Proof.
  intros HA HB.
  assert (0 < length A)%nat as LA by (destruct A; simpl; [congruence|lia]).
  assert (0 < length B)%nat as LB by (destruct B; simpl; [congruence|lia]).
  unfold reduce_match, PyString_Size.
  rewrite (min2_comm (Z.of_nat (length B))).
  rewrite (scan_range_ext
             (fun i => negb (Ascii.eqb (char_at B i) (char_at A i)))
             (fun i => negb (Ascii.eqb (char_at A i) (char_at B i))))
    by (intros x; now rewrite ascii_eqb_sym).
  rewrite min2_of_nat, range_of_nat.
  destruct (scan_range_spec
              (fun i => negb (Ascii.eqb (char_at A i) (char_at B i)))
              (Nat.min (length A) (length B)) 0 0)
    as (ki & -> & Hki & _); [lia|].
  rewrite (scan_range_ext
             (fun j => negb (Ascii.eqb
                (char_at B (Z.of_nat (length B) - j - 1))
                (char_at A (Z.of_nat (length A) - j - 1))))
             (fun j => negb (Ascii.eqb
                (char_at A (Z.of_nat (length A) - j - 1))
                (char_at B (Z.of_nat (length B) - j - 1)))))
    by (intros x; now rewrite ascii_eqb_sym).
  rewrite (scan_range_start _ _ (Z.of_nat (length B) - 1)
             (Z.of_nat (length A) - 1)).
  - intros H. injection H as <- <- <-. reflexivity.
  - replace (Z.of_nat (Nat.min (length A) (length B)) - Z.of_nat ki)
      with (Z.of_nat (S (Nat.min (length A) (length B) - ki - 1))) by lia.
    rewrite range_of_nat. simpl. discriminate.
Qed.

(** X28. damerau_levenshtein_distance does not depend on the order of two
    non-empty sequences. *)
Theorem damerau_levenshtein_distance_sym (A B : list ascii) :
  A <> [] -> B <> [] ->
  damerau_levenshtein_distance A B = damerau_levenshtein_distance B A.
Proof.
  intros HA HB. unfold damerau_levenshtein_distance.
  destruct (reduce_match A B) as [[a b] k] eqn:E.
  rewrite (reduce_match_sym A B a b k HA HB E).
  rewrite !damerau_levenshtein_core_table. apply dl_table_sym.
Qed.

Lemma damerau_levenshtein_distance_sym_witness :
  damerau_levenshtein_distance (bytes "fee") (bytes "deed")
  = damerau_levenshtein_distance (bytes "deed") (bytes "fee").
Proof.
  apply (damerau_levenshtein_distance_sym (bytes "fee") (bytes "deed"));
    discriminate.
Defined.

(* the table looks at the first r symbols of s1 and the first c of s2 *)
Lemma dl_table_ext (s1 s2 t1 t2 : list ascii) (r c : nat) :
  (forall x, (x < r)%nat -> nth x s1 zero = nth x t1 zero) ->
  (forall y, (y < c)%nat -> nth y s2 zero = nth y t2 zero) ->
  dl_table s1 s2 r c = dl_table t1 t2 r c.
Proof.
  revert r c. apply (dl_table_ind
    (fun r c =>
       (forall x, (x < r)%nat -> nth x s1 zero = nth x t1 zero) ->
       (forall y, (y < c)%nat -> nth y s2 zero = nth y t2 zero) ->
       dl_table s1 s2 r c = dl_table t1 t2 r c)).
  - intros c _ _. reflexivity.
  - intros r _ _. now rewrite !dl_table_0.
  - intros r c H1 H2 H3 H4 Hr Hc. rewrite !dl_table_S.
    rewrite H1, H2, H3, H4 by (intros; (apply Hr || apply Hc); lia).
    unfold sub_cost, transposed.
    rewrite (Hr r), (Hc c), (Hr (Nat.pred r)), (Hc (Nat.pred c)) by lia.
    reflexivity.
Qed.

Lemma dl_table_step_down (s1 s2 : list ascii) (r c : nat) :
  dl_table s1 s2 (S r) c <= dl_table s1 s2 r c + 1 /\
  dl_table s1 s2 r (S c) <= dl_table s1 s2 r c + 1 /\
  dl_table s1 s2 (S r) (S c) <= dl_table s1 s2 r c + 1.
Proof.
  pose proof (sub_cost_range s1 s2 r c).
  split; [|split].
  - destruct c as [|c].
    + rewrite !dl_table_0. lia.
    + rewrite dl_table_S, min4_min. lia.
  - destruct r as [|r].
    + rewrite !dl_table_row0. lia.
    + rewrite dl_table_S, min4_min. lia.
  - rewrite dl_table_S, min4_min. lia.
Qed.

Lemma transposed_pos (s1 s2 : list ascii) (r c : nat) :
  transposed s1 s2 r c = true -> (0 < r)%nat /\ (0 < c)%nat.
Proof.
  unfold transposed. destruct r, c; simpl; try discriminate. lia.
Qed.

Lemma dl_table_step_up (s1 s2 : list ascii) (r c : nat) :
  dl_table s1 s2 r c <= dl_table s1 s2 (S r) c + 1 /\
  dl_table s1 s2 r c <= dl_table s1 s2 r (S c) + 1.
Proof.
  revert r c. apply dl_table_ind.
  - intros c. split.
    + pose proof (dl_table_bounds s1 s2 1 c). rewrite dl_table_row0. lia.
    + rewrite !dl_table_row0. lia.
  - intros r. split.
    + rewrite !dl_table_0. lia.
    + pose proof (dl_table_bounds s1 s2 r 1). rewrite dl_table_0. lia.
  - intros r c H1 H2 H3 _.
    pose proof (dl_table_step_down s1 s2 r c) as D1.
    pose proof (dl_table_step_down s1 s2 (S r) c) as D2.
    pose proof (dl_table_step_down s1 s2 r (S c)) as D3.
    pose proof (sub_cost_range s1 s2 (S r) c).
    pose proof (sub_cost_range s1 s2 r (S c)).
    split.
    + rewrite (dl_table_S s1 s2 (S r) c), min4_min.
      destruct (transposed s1 s2 (S r) c) eqn:T; [|lia].
      apply transposed_pos in T as [_ Hc].
      destruct c as [|c]; [lia|]. simpl Nat.pred.
      pose proof (dl_table_step_down s1 s2 r c). lia.
    + rewrite (dl_table_S s1 s2 r (S c)), min4_min.
      destruct (transposed s1 s2 r (S c)) eqn:T; [|lia].
      apply transposed_pos in T as [Hr _].
      destruct r as [|r]; [lia|]. simpl Nat.pred.
      pose proof (dl_table_step_down s1 s2 r c). lia.
Qed.

(* a common first symbol does not count *)
Lemma dl_table_cons (x : ascii) (a b : list ascii) (r c : nat) :
  dl_table (x :: a) (x :: b) (S r) (S c) = dl_table a b r c.
Proof.
  revert r c. apply dl_table_ind.
  - induction c as [|c IH].
    + rewrite dl_table_S, min4_min. unfold sub_cost. simpl.
      rewrite Ascii.eqb_refl. reflexivity.
    + rewrite dl_table_S, min4_min, IH, !dl_table_row0.
      pose proof (sub_cost_range (x :: a) (x :: b) 0 (S c)).
      change (transposed (x :: a) (x :: b) 0 (S c)) with false.
      cbv iota. lia.
  - induction r as [|r IH].
    + rewrite dl_table_S, min4_min. unfold sub_cost. simpl.
      rewrite Ascii.eqb_refl. reflexivity.
    + rewrite dl_table_S, min4_min, IH, !dl_table_0.
      pose proof (sub_cost_range (x :: a) (x :: b) (S r) 0).
      assert (transposed (x :: a) (x :: b) (S r) 0 = false) as ->
        by (unfold transposed; simpl; apply andb_false_r || reflexivity).
      lia.
  - intros r c H1 H2 H3 H4.
    rewrite (dl_table_S (x :: a) (x :: b) (S r) (S c)), H1, H2, H3.
    rewrite (dl_table_S a b r c), !min4_min.
    change (sub_cost (x :: a) (x :: b) (S r) (S c)) with (sub_cost a b r c).
    pose proof (sub_cost_range a b r c).
    simpl Nat.pred.
    destruct r as [|r]; [|destruct c as [|c]].
    + (* first row of the shorter table: no transposition there *)
      change (transposed a b 0 c) with false. cbv iota.
      rewrite !dl_table_row0.
      destruct (transposed (x :: a) (x :: b) 1 (S c)); lia.
    + assert (transposed a b (S r) 0 = false) as ->
        by (unfold transposed; simpl; apply andb_false_r || reflexivity).
      rewrite !dl_table_0.
      destruct (transposed (x :: a) (x :: b) (S (S r)) 1); lia.
    + change (transposed (x :: a) (x :: b) (S (S r)) (S (S c)))
        with (transposed a b (S r) (S c)).
      simpl Nat.pred in H4. rewrite H4. reflexivity.
Qed.

Lemma dl_table_prefix (p a b : list ascii) (r c : nat) :
  dl_table (p ++ a) (p ++ b) (length p + r) (length p + c)
  = dl_table a b r c.
Proof.
  induction p as [|x p IH]; [reflexivity|].
  cbn [app length Nat.add]. now rewrite dl_table_cons.
Qed.

(* a common last symbol does not count *)
Lemma dl_table_snoc (x : ascii) (a b : list ascii) :
  dl_table (a ++ [x]) (b ++ [x]) (S (length a)) (S (length b))
  = dl_table a b (length a) (length b).
Proof.
  rewrite dl_table_S, min4_min.
  pose proof (dl_table_step_up (a ++ [x]) (b ++ [x]) (length a) (length b)).
  assert (sub_cost (a ++ [x]) (b ++ [x]) (length a) (length b) = 0) as ->.
  { unfold sub_cost. rewrite !nth_middle, Ascii.eqb_refl. reflexivity. }
  assert (dl_table (a ++ [x]) (b ++ [x]) (length a) (length b)
          <= dl_table (a ++ [x]) (b ++ [x]) (Nat.pred (length a))
               (Nat.pred (length b)) + 1 \/
          transposed (a ++ [x]) (b ++ [x]) (length a) (length b) = false)
    as Hdiag.
  { destruct (transposed _ _ _ _) eqn:T; [left | now right].
    apply transposed_pos in T as [Ha Hb].
    destruct (length a) as [|la]; [lia|]. destruct (length b) as [|lb]; [lia|].
    simpl Nat.pred. apply dl_table_step_down. }
  rewrite <- (dl_table_ext (a ++ [x]) (b ++ [x]) a b).
  - destruct Hdiag as [Hd| ->]; [destruct (transposed _ _ _ _)|]; lia.
  - intros y Hy. now rewrite app_nth1.
  - intros y Hy. now rewrite app_nth1.
Qed.

Lemma dl_table_suffix (s : list ascii) :
  forall a b : list ascii,
  dl_table (a ++ s) (b ++ s) (length a + length s) (length b + length s)
  = dl_table a b (length a) (length b).
Proof.
  induction s as [|x s IH]; intros a b.
  - rewrite !app_nil_r. simpl. now rewrite !Nat.add_0_r.
  - change (x :: s) with ([x] ++ s). rewrite !app_assoc.
    replace (length a + length ([x] ++ s))%nat
      with (length (a ++ [x]) + length s)%nat
      by (rewrite length_app; simpl; lia).
    replace (length b + length ([x] ++ s))%nat
      with (length (b ++ [x]) + length s)%nat
      by (rewrite length_app; simpl; lia).
    rewrite IH, !length_app. simpl length.
    rewrite !Nat.add_1_r. apply dl_table_snoc.
Qed.

(** X29. On two non-empty sequences damerau_levenshtein_distance returns
    the entry cost[n,m] of the recurrence in its docstring for the
    sequences as they were passed: the reduction and the swap do not change
    it. *)
Theorem damerau_levenshtein_distance_table (A B : list ascii) :
  A <> [] -> B <> [] ->
  damerau_levenshtein_distance A B = dl_table A B (length A) (length B).
Proof.
  intros HA HB.
  destruct (reduce_match_nonempty_aux A B HA HB)
    as (p & a & b & s & E & EA & EB & _ & _).
  unfold damerau_levenshtein_distance.
  rewrite E, damerau_levenshtein_core_table.
  clear E HA HB. subst A B.
  rewrite !length_app, dl_table_prefix, dl_table_suffix. reflexivity.
Qed.

Lemma damerau_levenshtein_distance_table_witness :
  damerau_levenshtein_distance (bytes "abcd") (bytes "acbd")
  = dl_table (bytes "abcd") (bytes "acbd") 4 4.
Proof.
  apply (damerau_levenshtein_distance_table (bytes "abcd") (bytes "acbd"));
    discriminate.
Defined.

(** X30. On two non-empty sequences the reduction by reduce_match is a pure
    optimisation: the code of levenshtein_distance and of
    damerau_levenshtein_distance below that call gives the same result on
    the reduced pair as on the pair itself. *)
Theorem reduce_match_preserves (A B a b : list ascii) (k : Z) :
  A <> [] -> B <> [] -> reduce_match A B = (a, b, k) ->
  levenshtein_core a b = levenshtein_core A B /\
  damerau_levenshtein_core a b = damerau_levenshtein_core A B.
Proof.
  intros HA HB E.
  destruct (reduce_match_nonempty_aux A B HA HB)
    as (p & a' & b' & s & E' & EA & EB & _ & _).
  rewrite E in E'. injection E' as <- <- _.
  rewrite !levenshtein_core_table, !damerau_levenshtein_core_table.
  clear E HA HB. subst A B.
  rewrite !length_app, lev_table_prefix, lev_table_suffix,
    dl_table_prefix, dl_table_suffix.
  split; reflexivity.
Qed.

Lemma reduce_match_preserves_witness :
  levenshtein_core (bytes "de") (bytes "xx")
  = levenshtein_core (bytes "abcdefg") (bytes "abcxxfg") /\
  damerau_levenshtein_core (bytes "de") (bytes "xx")
  = damerau_levenshtein_core (bytes "abcdefg") (bytes "abcxxfg").
Proof.
  apply (reduce_match_preserves (bytes "abcdefg") (bytes "abcxxfg")
           (bytes "de") (bytes "xx") 3); try discriminate.
  reflexivity.
Defined.
